(** * BatchProcessor: a shallow embedding of eleven-audiobooks/BatchProcessor.py

    The Python class reads text files, builds one Message Batches request per
    non-empty file, submits the batch, polls its status every five seconds and
    writes every succeeded result next to its input file.

    The embedding is a state-and-exception monad over an explicit world:
    the file system, the instance attribute [custom_id_to_filename], a logical
    clock advanced by [asyncio.sleep], the number of status polls made so far,
    and a chronological trace of every observable action (log lines, service
    calls, writes, progress-bar updates).  The external service is a record of
    three oracles.  The polling loop is unbounded in the source, so it takes
    fuel here and returns [None] only when the fuel runs out. *)

From Stdlib Require Import Ascii String.
From stdpp Require Import base gmap strings list pretty sorting.

Local Open Scope string_scope.

(** ** Paths (pathlib.PurePosixPath) *)

Module Pathlib.

(** A pure POSIX path: the root ("", "/" or "//") and the components. *)
Record Path := mkPath { root : string; parts : list string }.

#[global] Instance Path_eq_dec : EqDecision Path.
Proof. solve_decision. Defined.

#[global] Instance Path_countable : Countable Path.
Proof.
  refine (inj_countable' (fun p => (root p, parts p))
                         (fun t => mkPath t.1 t.2) _).
  by intros [].
Defined.

(** [s.split(c)]: the pieces of [s] between occurrences of [c]. *)
Fixpoint split_on (c : ascii) (s : string) : list string :=
  match s with
  | EmptyString => [""]
  | String a s' =>
      if decide (a = c) then "" :: split_on c s'
      else match split_on c s' with
           | [] => [String a ""]
           | h :: t => String a h :: t
           end
  end.

Definition starts_with_slash (s : string) : bool :=
  match s with
  | String a _ => bool_decide (a = "/"%char)
  | EmptyString => false
  end.

Definition tail (s : string) : string :=
  match s with String _ s' => s' | EmptyString => "" end.

(** The root of a POSIX path string: exactly two leading slashes are kept,
    one or three and more collapse to one. *)
Definition parse_root (s : string) : string :=
  if starts_with_slash s then
    if starts_with_slash (tail s) && negb (starts_with_slash (tail (tail s)))
    then "//" else "/"
  else "".

(** [Path(s)]: empty and "." components are dropped. *)
Definition parse (s : string) : Path :=
  mkPath (parse_root s)
         (filter (fun x => x ≠ "" ∧ x ≠ ".") (split_on "/"%char s)).

(** [base / s]: an absolute [s] replaces [base]. *)
Definition joinpath (base : Path) (s : string) : Path :=
  let q := parse s in
  if decide (root q = "") then mkPath (root base) (parts base ++ parts q)
  else q.

(** [p.name]: the final component, empty for a bare root or ".". *)
Definition name (p : Path) : string := List.last (parts p) "".

(** [s.rfind(c)]; [None] stands for Python's -1. *)
Fixpoint rfind_from (c : ascii) (s : string) (pos : nat) : option nat :=
  match s with
  | EmptyString => None
  | String a s' =>
      match rfind_from c s' (S pos) with
      | Some i => Some i
      | None => if decide (a = c) then Some pos else None
      end
  end.

Definition rfind (c : ascii) (s : string) : option nat := rfind_from c s 0.

(** The test [0 < i < len(name) - 1] shared by [suffix] and [stem]. *)
Definition ext_index (nm : string) : option nat :=
  match rfind "."%char nm with
  | Some i =>
      if bool_decide (0 < i) && bool_decide (i < String.length nm - 1)
      then Some i else None
  | None => None
  end.

(** [p.suffix] on the name: [name[i:]] or the empty string. *)
Definition suffix_of (nm : string) : string :=
  match ext_index nm with
  | Some i => substring i (String.length nm - i) nm
  | None => ""
  end.

(** [p.stem] on the name: [name[:i]] or the whole name. *)
Definition stem_of (nm : string) : string :=
  match ext_index nm with
  | Some i => substring 0 i nm
  | None => nm
  end.

Definition suffix (p : Path) : string := suffix_of (name p).
Definition stem (p : Path) : string := stem_of (name p).

(** [p.with_name(n)] raises ValueError when [p] has an empty name; [None]
    is that exception.  The second check of pathlib, that [n] is one valid
    component, is not modelled: the only caller builds [n] from the stem and
    suffix of an existing component and a literal without separator. *)
Definition with_name (p : Path) (n : string) : option Path :=
  if decide (name p = "") then None
  else Some (mkPath (root p) (removelast (parts p) ++ [n])).

Definition parent (p : Path) : Path :=
  mkPath (root p) (removelast (parts p)).

End Pathlib.

Import Pathlib.

(** ** Exceptions, requests, results, log lines *)

Inductive exn :=
| FileNotFoundError (p : Path)
| OSError (p : Path)
| UnboundLocalError (var : string)
| KeyError (key : string)
| IndexError
| APIError (msg : string).

#[global] Instance exn_eq_dec : EqDecision exn.
Proof. solve_decision. Defined.

Inductive outcome (A : Type) :=
| Ret (a : A)
| Raise (e : exn).
Arguments Ret {A} a.
Arguments Raise {A} e.

(** One user message: role, content type and text. *)
Record Message := mkMessage {
  role : string;
  content_type : string;
  text : string
}.

(** [Request(custom_id=..., params=MessageCreateParamsNonStreaming(...))]. *)
Record Request := mkRequest {
  custom_id : string;
  model : string;
  max_tokens : N;
  temperature : nat;
  system : string;
  messages : list Message
}.

(** What [batches.retrieve] returns, as far as the code reads it. *)
Record MessageBatch := mkBatch {
  id : string;
  processing_status : string
}.

(** One item of [batches.results]: [result.custom_id], [result.result.type]
    and the text of each block of [result.result.message.content]. *)
Record BatchResult := mkResult {
  r_custom_id : string;
  r_type : string;
  r_content : list string
}.

Inductive Level := INFO | ERROR.

Inductive LogMsg :=
| FileNotFound (p : Path)
| ErrorReading (p : Path) (e : exn)
| WroteOptimized (p : Path)
| ErrorWriting (p : Path) (e : exn)
| BatchStatus (batch_id status : string)
| RequestFailed (cid : string)
| ErrorInBatch (e : exn)
| NoValidFiles.

(** Everything the program does that an observer can see, in order. *)
Inductive Event :=
| EvLog (lvl : Level) (msg : LogMsg)
| EvSleep (secs : nat)
| EvCreate (reqs : list Request)
| EvRetrieve (batch_id : string) (now : nat)
| EvResults (batch_id : string)
| EvWrite (p : Path) (content : string)
| EvPbarOpen (total : nat)
| EvPbarUpdate (n : nat)
| EvPbarClose.

(** The external service: the three calls the code makes.  The answer of
    [retrieve] may depend on how many polls were made before. *)
Record Service := mkService {
  batches_create : list Request → outcome MessageBatch;
  batches_retrieve : string → nat → outcome MessageBatch;
  batches_results : string → outcome (list BatchResult)
}.

(** ** The world

    Files are keyed by their lexical path: two spellings of one file (through
    ".." or a link) are two keys.  Writing a file can fail in two ways: the
    open fails and nothing changes, or the open succeeds, which creates or
    truncates the file, and the write (or the close) fails later, leaving a
    prefix of the text, possibly empty. *)

Record State := mkState {
  files : gmap Path string;          (* regular files and their text *)
  unreadable : gset Path;            (* open(.., 'r') fails with OSError *)
  unwritable : gset Path;            (* open(.., 'w') fails with OSError *)
  torn : gmap Path nat;              (* write fails after open(.., 'w'): the
                                        characters that reached the file *)
  custom_id_to_filename : gmap string string;   (* self.custom_id_to_filename *)
  clock : nat;                       (* seconds slept so far *)
  polls : nat;                       (* calls of batches.retrieve so far *)
  trace : list Event
}.

Definition set_files (f : gmap Path string) (st : State) : State :=
  mkState f (unreadable st) (unwritable st) (torn st)
          (custom_id_to_filename st)
          (clock st) (polls st) (trace st).

Definition set_mapping (m : gmap string string) (st : State) : State :=
  mkState (files st) (unreadable st) (unwritable st) (torn st)
          m
          (clock st) (polls st) (trace st).

Definition set_clock (c : nat) (st : State) : State :=
  mkState (files st) (unreadable st) (unwritable st) (torn st)
          (custom_id_to_filename st)
          c (polls st) (trace st).

Definition set_polls (n : nat) (st : State) : State :=
  mkState (files st) (unreadable st) (unwritable st) (torn st)
          (custom_id_to_filename st)
          (clock st) n (trace st).

Definition add_events (es : list Event) (st : State) : State :=
  mkState (files st) (unreadable st) (unwritable st) (torn st)
          (custom_id_to_filename st)
          (clock st) (polls st) (trace st ++ es).

(** ** The monad: state and exceptions *)

Definition M (A : Type) : Type := State → outcome A * State.

Definition ret {A} (a : A) : M A := fun st => (Ret a, st).

Definition raise {A} (e : exn) : M A := fun st => (Raise e, st).

Definition bind {A B} (m : M A) (k : A → M B) : M B :=
  fun st =>
    match m st with
    | (Ret a, st') => k a st'
    | (Raise e, st') => (Raise e, st')
    end.

(** [try: m except Exception as e: h e]. *)
Definition try_except {A} (m : M A) (h : exn → M A) : M A :=
  fun st =>
    match m st with
    | (Ret a, st') => (Ret a, st')
    | (Raise e, st') => h e st'
    end.

Definition lift {A} (o : outcome A) : M A := fun st => (o, st).

Declare Scope py_scope.
Delimit Scope py_scope with py.
Notation "'let!' x ':=' m 'in' k" := (bind m (fun x => k))
  (at level 10, x pattern, m at level 100, k at level 200) : py_scope.
Notation "m '>>' k" := (bind m (fun _ => k))
  (at level 100, k at level 200, right associativity) : py_scope.
Local Open Scope py_scope.

Definition emit (e : Event) : M unit := fun st => (Ret tt, add_events [e] st).

Definition logging_info (m : LogMsg) : M unit := emit (EvLog INFO m).
Definition logging_error (m : LogMsg) : M unit := emit (EvLog ERROR m).

(** ** File access *)

(** [open(p, 'r').read()]. *)
Definition open_read (p : Path) : M string := fun st =>
  if decide (p ∈ unreadable st) then (Raise (OSError p), st)
  else match files st !! p with
       | Some s => (Ret s, st)
       | None => (Raise (FileNotFoundError p), st)
       end.

(** [with open(p, 'w') as file: file.write(s)].  The open creates the file
    or truncates it; a write that fails afterwards leaves the characters that
    got through.  [EvWrite] records a write that completed. *)
Definition open_write (p : Path) (s : string) : M unit := fun st =>
  if decide (p ∈ unwritable st) then (Raise (OSError p), st)
  else match torn st !! p with
       | Some k =>
           (Raise (OSError p),
            set_files (<[p := substring 0 k s]> (files st)) st)
       | None =>
           (Ret tt,
            add_events [EvWrite p s] (set_files (<[p := s]> (files st)) st))
       end.

(** ** The class *)

Record BatchProcessor := mkProcessor {
  base_dir : Path;
  system_prompt : string
}.

Definition SYSTEM_PROMPT : string :=
"You are an expert language editor specializing in optimizing text for voice synthesis. Your task is to modify the given text to make it optimal for reading aloud. 
        Follow these instructions to modify the text:
        1. Remove all numerical references, footnotes, and page numbers.
        2. Join words that are hyphenated at the end of lines.
        3. Remove excessive spaces and empty lines.
        4. Preserve correct punctuation and sentence structure.
        5. Maintain italics and other meaningful text formatting if marked.
        6. Adjust the text to be natural for reading aloud while preserving the original meaning.
        7. Return only the modified text without any comments or explanations.".

(** [__init__]: the API key only configures the client, which is the
    [Service] argument of the methods below. *)
Definition init (api_key base_dir : string) : BatchProcessor :=
  mkProcessor (parse base_dir) SYSTEM_PROMPT.

(** [read_file_content]: every exception is logged and turned into "". *)
Definition read_file_content (file_path : Path) : M string :=
  try_except (open_read file_path)
    (fun e =>
       match e with
       | FileNotFoundError _ => logging_error (FileNotFound file_path) >> ret ""
       | _ => logging_error (ErrorReading file_path e) >> ret ""
       end).

(** [write_optimized_content].  [optimized_path] is bound inside the [try];
    when [with_name] itself raises, the handler reads an unbound local. *)
Definition optimized_name (file_path : Path) : string :=
  stem file_path +:+ "-OPTIMIZED" +:+ suffix file_path.

Definition write_optimized_content (file_path : Path) (content : string)
  : M unit :=
  match with_name file_path (optimized_name file_path) with
  | Some optimized_path =>
      try_except
        (open_write optimized_path content >>
         logging_info (WroteOptimized optimized_path))
        (fun e => logging_error (ErrorWriting optimized_path e))
  | None => raise (UnboundLocalError "optimized_path")
  end.

(** [self.custom_id_to_filename[k]]. *)
Definition mapping_get (k : string) : M string := fun st =>
  match custom_id_to_filename st !! k with
  | Some v => (Ret v, st)
  | None => (Raise (KeyError k), st)
  end.

Definition mapping_set (k v : string) : M unit := fun st =>
  (Ret tt, set_mapping (<[k := v]> (custom_id_to_filename st)) st).

Definition mapping_reset : M unit := fun st => (Ret tt, set_mapping ∅ st).

Definition USER_PREFIX : string := "Modify the given text for voice synthesis:

".

Definition make_request (sys cid content : string) : Request :=
  mkRequest cid "claude-3-5-haiku-20241022" 8192%N 0 sys
            [mkMessage "user" "text" (USER_PREFIX +:+ content)].

(** [f"req_{idx}"]. *)
Definition req_id (idx : nat) : string := "req_" +:+ pretty idx.

(** The body of [for idx, filename in enumerate(files_to_process, 1)],
    from index [idx] on, appending to [requests]. *)
Fixpoint prepare_loop (self : BatchProcessor) (idx : nat)
    (files_to_process : list string) (requests : list Request)
  : M (list Request) :=
  match files_to_process with
  | [] => ret requests
  | filename :: rest =>
      let file_path := joinpath (base_dir self) filename in
      let! content := read_file_content file_path in
      if decide (content = "") then prepare_loop self (S idx) rest requests
      else
        let custom_id := req_id idx in
        mapping_set custom_id filename >>
        prepare_loop self (S idx) rest
          (requests ++ [make_request (system_prompt self) custom_id content])
  end.

Definition prepare_batch_requests (self : BatchProcessor)
    (files_to_process : list string) : M (list Request) :=
  mapping_reset >> prepare_loop self 1 files_to_process [].

(** ** The service calls, as actions *)

Definition create (svc : Service) (requests : list Request) : M MessageBatch :=
  emit (EvCreate requests) >> lift (batches_create svc requests).

Definition retrieve (svc : Service) (batch_id : string) : M MessageBatch :=
  fun st =>
    (batches_retrieve svc batch_id (polls st),
     add_events [EvRetrieve batch_id (clock st)] (set_polls (S (polls st)) st)).

Definition results (svc : Service) (batch_id : string) : M (list BatchResult) :=
  emit (EvResults batch_id) >> lift (batches_results svc batch_id).

(** [await asyncio.sleep(n)]. *)
Definition sleep (n : nat) : M unit := fun st =>
  (Ret tt, add_events [EvSleep n] (set_clock (clock st + n) st)).

(** ** Processing the results *)

(** [content[0].text]. *)
Definition first_text (content : list string) : M string :=
  match content with
  | t :: _ => ret t
  | [] => raise IndexError
  end.

(** The body of [for result in ...results(batch_id)]; the value is the new
    [processed_files]. *)
Definition handle_result (self : BatchProcessor) (result : BatchResult)
    (processed_files : gset string) : M (gset string) :=
  if decide (r_custom_id result ∈ processed_files) then ret processed_files
  else if decide (r_type result = "succeeded") then
    let! filename := mapping_get (r_custom_id result) in
    let file_path := joinpath (base_dir self) filename in
    let! txt := first_text (r_content result) in
    write_optimized_content file_path txt >>
    emit (EvPbarUpdate 1) >>
    ret ({[r_custom_id result]} ∪ processed_files)
  else if decide (r_type result = "errored" ∨ r_type result = "expired") then
    logging_error (RequestFailed (r_custom_id result)) >>
    emit (EvPbarUpdate 1) >>
    ret ({[r_custom_id result]} ∪ processed_files)
  else ret processed_files.

Fixpoint for_results (self : BatchProcessor) (rs : list BatchResult)
    (processed_files : gset string) : M (gset string) :=
  match rs with
  | [] => ret processed_files
  | result :: rest =>
      let! processed_files' := handle_result self result processed_files in
      for_results self rest processed_files'
  end.

Definition retry_interval : nat := 5.

(** One iteration of the [while]: [None] is [continue] (also falling off the
    end of the body), [Some s] is [break] with [processed_files = s]. *)
Definition loop_body (self : BatchProcessor) (svc : Service)
    (batch_id : string) (processed_files : gset string)
  : M (option (gset string)) :=
  let! message_batch := retrieve svc batch_id in
  logging_info (BatchStatus (id message_batch)
                            (processing_status message_batch)) >>
  if decide (processing_status message_batch = "in_progress") then
    sleep retry_interval >> ret None
  else if decide (processing_status message_batch = "ended") then
    let! rs := results svc batch_id in
    let! processed_files' := for_results self rs processed_files in
    ret (Some processed_files')
  else ret None.

(** ** Computations that may not terminate *)

Definition MF (A : Type) : Type := State → option (outcome A * State).

Definition lift_f {A} (m : M A) : MF A := fun st => Some (m st).

Definition bind_f {A B} (m : MF A) (k : A → MF B) : MF B :=
  fun st =>
    match m st with
    | None => None
    | Some (Ret a, st') => k a st'
    | Some (Raise e, st') => Some (Raise e, st')
    end.

Definition try_except_f {A} (m : MF A) (h : exn → MF A) : MF A :=
  fun st =>
    match m st with
    | None => None
    | Some (Ret a, st') => Some (Ret a, st')
    | Some (Raise e, st') => h e st'
    end.

(** [while len(processed_files) < len(files_to_process): ...]; the value is
    [processed_files] when the loop is left. *)
Fixpoint while_loop (fuel : nat) (self : BatchProcessor) (svc : Service)
    (batch_id : string) (files_to_process : list string)
    (processed_files : gset string) : MF (gset string) :=
  fun st =>
    match fuel with
    | 0 => None
    | S fuel' =>
        if decide (size processed_files < length files_to_process) then
          match loop_body self svc batch_id processed_files st with
          | (Raise e, st') => Some (Raise e, st')
          | (Ret (Some s), st') => Some (Ret s, st')
          | (Ret None, st') =>
              while_loop fuel' self svc batch_id files_to_process
                         processed_files st'
          end
        else Some (Ret processed_files, st)
    end.

Definition process_batch_results (fuel : nat) (self : BatchProcessor)
    (svc : Service) (batch_id : string) (files_to_process : list string)
  : MF unit :=
  try_except_f
    (bind_f (lift_f (emit (EvPbarOpen (length files_to_process)))) (fun _ =>
     bind_f (while_loop fuel self svc batch_id files_to_process ∅) (fun _ =>
     lift_f (emit EvPbarClose))))
    (fun e => lift_f (logging_error (ErrorInBatch e) >> raise e)).

Definition process_files (fuel : nat) (self : BatchProcessor) (svc : Service)
    (files_to_process : list string) : MF unit :=
  try_except_f
    (bind_f (lift_f (prepare_batch_requests self files_to_process))
       (fun requests =>
          match requests with
          | [] => lift_f (logging_error NoValidFiles)
          | _ :: _ =>
              bind_f (lift_f (create svc requests)) (fun message_batch =>
              process_batch_results fuel self svc (id message_batch)
                                    files_to_process)
          end))
    (fun e => lift_f (logging_error (ErrorInBatch e))).

(** ** Vocabulary for the statements *)

(** What [read_file_content] gives back for a path. *)
Definition content_of (st : State) (p : Path) : string :=
  if decide (p ∈ unreadable st) then "" else default "" (files st !! p).

(** The file reads back as non-empty text. *)
Definition has_text (self : BatchProcessor) (st : State) (filename : string)
  : Prop :=
  content_of st (joinpath (base_dir self) filename) ≠ "".

#[global] Instance has_text_dec self st f : Decision (has_text self st f).
Proof. unfold has_text. apply _. Defined.

(** What [read_file_content] logs for a path. *)
Definition read_events (st : State) (p : Path) : list Event :=
  if decide (p ∈ unreadable st) then [EvLog ERROR (ErrorReading p (OSError p))]
  else match files st !! p with
       | Some _ => []
       | None => [EvLog ERROR (FileNotFound p)]
       end.

(** [enumerate(l, idx)]. *)
Fixpoint enumerate (idx : nat) (l : list string) : list (nat * string) :=
  match l with
  | [] => []
  | x :: rest => (idx, x) :: enumerate (S idx) rest
  end.

(** The numbered filenames that get a request. *)
Definition kept (self : BatchProcessor) (st : State) (idx : nat)
    (files_to_process : list string) : list (nat * string) :=
  filter (fun x => has_text self st x.2) (enumerate idx files_to_process).

Definition request_of (self : BatchProcessor) (st : State) (x : nat * string)
  : Request :=
  make_request (system_prompt self) (req_id x.1)
               (content_of st (joinpath (base_dir self) x.2)).

Definition record_ids (m : gmap string string) (l : list (nat * string))
  : gmap string string :=
  foldl (fun m x => <[req_id x.1 := x.2]> m) m l.

Definition prepare_events (self : BatchProcessor) (st : State)
    (files_to_process : list string) : list Event :=
  concat (map (fun f => read_events st (joinpath (base_dir self) f))
              files_to_process).

Definition is_service_call (e : Event) : bool :=
  match e with
  | EvCreate _ | EvRetrieve _ _ | EvResults _ => true
  | _ => false
  end.

(** The clock readings at which [batches.retrieve] was called. *)
Fixpoint poll_times (es : list Event) : list nat :=
  match es with
  | [] => []
  | EvRetrieve _ now :: rest => now :: poll_times rest
  | _ :: rest => poll_times rest
  end.

(** Events of an iteration that only waits: the poll, the status line and
    the sleep. *)
Definition is_waiting_event (e : Event) : bool :=
  match e with
  | EvRetrieve _ _ | EvLog INFO (BatchStatus _ _) | EvSleep _ => true
  | _ => false
  end.

(** Where a result with this custom id is written, if anywhere. *)
Definition output_path (self : BatchProcessor) (st : State) (cid : string)
  : option Path :=
  match custom_id_to_filename st !! cid with
  | Some filename =>
      let file_path := joinpath (base_dir self) filename in
      with_name file_path (optimized_name file_path)
  | None => None
  end.

Local Close Scope py_scope.
Local Open Scope list_scope.
Local Open Scope nat_scope.

(** The service answers poll number [n] with a batch whose status
    satisfies [P]. *)
Definition answers (svc : Service) (batch_id : string) (n : nat)
    (P : string → Prop) : Prop :=
  ∃ mb, batches_retrieve svc batch_id n = Ret mb ∧ P (processing_status mb).

(** The state after one iteration that does not reach the results. *)
Definition waiting_step (svc : Service) (batch_id : string) (st : State)
  : State :=
  match batches_retrieve svc batch_id (polls st) with
  | Ret mb =>
      let st1 :=
        add_events [EvRetrieve batch_id (clock st);
                    EvLog INFO (BatchStatus (id mb) (processing_status mb))]
                   (set_polls (S (polls st)) st) in
      if decide (processing_status mb = "in_progress")
      then add_events [EvSleep retry_interval]
                      (set_clock (clock st1 + retry_interval) st1)
      else st1
  | Raise _ => st
  end.

Fixpoint waited (svc : Service) (batch_id : string) (n : nat) (st : State)
  : State :=
  match n with
  | 0 => st
  | S n' => waited svc batch_id n' (waiting_step svc batch_id st)
  end.

(** Where each result of a list is written. *)
Definition outputs (self : BatchProcessor) (st : State)
    (rs : list BatchResult) : list (option Path) :=
  (fun r => output_path self st (r_custom_id r)) <$> rs.

(** The state after [write_optimized_content] targets [q], followed by
    [pbar.update(1)]. *)
Definition written (q : Path) (txt : string) (st : State) : State :=
  if decide (q ∈ unwritable st)
  then add_events [EvLog ERROR (ErrorWriting q (OSError q)); EvPbarUpdate 1] st
  else match torn st !! q with
       | Some k =>
           add_events [EvLog ERROR (ErrorWriting q (OSError q)); EvPbarUpdate 1]
                      (set_files (<[q := substring 0 k txt]> (files st)) st)
       | None =>
           add_events
             [EvWrite q txt; EvLog INFO (WroteOptimized q); EvPbarUpdate 1]
             (set_files (<[q := txt]> (files st)) st)
       end.

(** The state in which the results of an ended batch are fetched. *)
Definition fetching (batch_id : string) (mb : MessageBatch) (st : State)
  : State :=
  add_events [EvRetrieve batch_id (clock st);
              EvLog INFO (BatchStatus (id mb) (processing_status mb));
              EvResults batch_id]
             (set_polls (S (polls st)) st).

(** A result the code can route and write: succeeded, with a first text
    block, and a custom id that maps to a file with a name. *)
Definition deliverable (self : BatchProcessor) (st : State) (r : BatchResult)
  : Prop :=
  r_type r = "succeeded" ∧ r_content r ≠ [] ∧
  is_Some (output_path self st (r_custom_id r)).

(** Writing [q] raises: at the open, or after it. *)
Definition write_fails (st : State) (q : Path) : Prop :=
  q ∈ unwritable st ∨ is_Some (torn st !! q).

(** The file [q] holds the first text block of [r]; unless [q] cannot be
    opened, and then it is as it was in [st]; or the write fails after the
    open, and then it holds the characters of that text that got through. *)
Definition delivered (st st' : State) (q : Path) (r : BatchResult) : Prop :=
  files st' !! q =
  if decide (q ∈ unwritable st) then files st !! q
  else match torn st !! q with
       | Some k => substring 0 k <$> head (r_content r)
       | None => head (r_content r)
       end.

(** Custom ids with no gap: req_1, req_2, ... *)
Definition sequential (ids : list string) : Prop :=
  ids = req_id <$> seq 1 (length ids).

(** [q] is the sibling of the file routed to by [cid], named stem,
    "-OPTIMIZED", suffix. *)
Definition optimized_sibling (self : BatchProcessor) (st : State)
    (cid : string) (q : Path) : Prop :=
  ∃ filename,
    custom_id_to_filename st !! cid = Some filename ∧
    let file_path := joinpath (base_dir self) filename in
    parent q = parent file_path ∧
    name q = stem file_path +:+ "-OPTIMIZED" +:+ suffix file_path ∧
    stem file_path +:+ suffix file_path = name file_path.

(** How many times the progress bar advanced: the files counted as done. *)
Fixpoint progress (es : list Event) : nat :=
  match es with
  | [] => 0
  | EvPbarUpdate n :: rest => n + progress rest
  | _ :: rest => progress rest
  end.

(** The error lines of a trace, in order. *)
Fixpoint errors_logged (es : list Event) : list LogMsg :=
  match es with
  | [] => []
  | EvLog ERROR m :: rest => m :: errors_logged rest
  | _ :: rest => errors_logged rest
  end.

(** ** Vocabulary for the further properties *)

(** The outcomes the result loop acts on. *)
Definition recognised (r : BatchResult) : Prop :=
  r_type r = "succeeded" ∨ r_type r = "errored" ∨ r_type r = "expired".

#[global] Instance recognised_dec r : Decision (recognised r).
Proof. unfold recognised. apply _. Defined.

(** How many times the results of a batch were fetched. *)
Fixpoint fetches (es : list Event) : nat :=
  match es with
  | [] => 0
  | EvResults _ :: rest => S (fetches rest)
  | _ :: rest => fetches rest
  end.

(** How many seconds were slept. *)
Fixpoint slept (es : list Event) : nat :=
  match es with
  | [] => 0
  | EvSleep n :: rest => n + slept rest
  | _ :: rest => slept rest
  end.

(** What a step leaves alone: the id map, the permissions, and every file
    that is not the output of some mapped custom id; no file disappears. *)
Definition preserves (self : BatchProcessor) (st st' : State) : Prop :=
  custom_id_to_filename st' = custom_id_to_filename st ∧
  unwritable st' = unwritable st ∧
  unreadable st' = unreadable st ∧
  torn st' = torn st ∧
  (∀ p, (∀ cid, output_path self st cid ≠ Some p) →
        files st' !! p = files st !! p) ∧
  (∀ p, is_Some (files st !! p) → is_Some (files st' !! p)).

(** The custom ids of the results the loop acts on. *)
Definition recognised_ids (rs : list BatchResult) : gset string :=
  list_to_set (r_custom_id <$> filter recognised rs).

(** What one call of the polling code adds to the trace: at most one fetch of
    the results, and a clock and poll counter that moved with the sleeps and
    polls recorded. *)
Definition accounted (st st' : State) (es : list Event) : Prop :=
  trace st' = trace st ++ es ∧
  clock st' = clock st + slept es ∧
  polls st' = polls st + length (poll_times es).

(** Where the output for an input filename goes, if the path has a name. *)
Definition sibling_of (self : BatchProcessor) (filename : string)
  : option Path :=
  let file_path := joinpath (base_dir self) filename in
  with_name file_path (optimized_name file_path).

(** [open(p, 'r')] succeeds. *)
Definition openable (self : BatchProcessor) (st : State) (filename : string)
  : Prop :=
  (joinpath (base_dir self) filename ∉ unreadable st) ∧
  is_Some (files st !! joinpath (base_dir self) filename).

#[global] Instance openable_dec self st f : Decision (openable self st f).
Proof. unfold openable. apply _. Defined.

(** The message list of the request for a file. *)
Definition user_message (self : BatchProcessor) (st : State)
    (filename : string) : list Message :=
  [mkMessage "user" "text"
     (USER_PREFIX +:+ content_of st (joinpath (base_dir self) filename))].

(** ** Concrete worlds for the examples *)

Module Demo.

Definition self0 : BatchProcessor := init "sk-test" "/data".

(** a.md holds text, e.md is empty, b.md does not exist. *)
Definition st0 : State :=
  mkState {[ parse "/data/a.md" := "Hello"; parse "/data/e.md" := "" ]}
          ∅ ∅ ∅ ∅ 0 0 [].

(** Two polls in progress, then ended with one succeeded result. *)
Definition svc0 : Service :=
  mkService
    (fun _ => Ret (mkBatch "batch_1" "in_progress"))
    (fun _ n => if decide (n < 2) then Ret (mkBatch "batch_1" "in_progress")
                else Ret (mkBatch "batch_1" "ended"))
    (fun _ => Ret [mkResult "req_1" "succeeded" ["Hi"]]).

(** The state after preparing ["a.md"]: req_1 is routed to a.md. *)
Definition st1 : State := set_mapping {[ "req_1" := "a.md" ]} st0.

(** The same, on a file system that refuses to create a-OPTIMIZED.md. *)
Definition st1_readonly : State :=
  mkState (files st1) ∅ {[ parse "/data/a-OPTIMIZED.md" ]} ∅
          (custom_id_to_filename st1) 0 0 [].

(** The same, where a-OPTIMIZED.md exists and opens, and the write then
    fails after one character. *)
Definition st1_torn : State :=
  mkState (<[ parse "/data/a-OPTIMIZED.md" := "old text" ]> (files st1))
          ∅ ∅ {[ parse "/data/a-OPTIMIZED.md" := 1 ]}
          (custom_id_to_filename st1) 0 0 [].

(** Ended at the first poll, one succeeded result. *)
Definition svc_ended : Service :=
  mkService
    (fun _ => Ret (mkBatch "batch_1" "in_progress"))
    (fun _ _ => Ret (mkBatch "batch_1" "ended"))
    (fun _ => Ret [mkResult "req_1" "succeeded" ["Hi"]]).

(** The service refuses the submission. *)
Definition svc_down : Service :=
  mkService
    (fun _ => Raise (APIError "overloaded"))
    (fun _ _ => Ret (mkBatch "batch_1" "ended"))
    (fun _ => Ret []).

(** The batch was canceled: it has ended and its one result is "canceled". *)
Definition svc_canceled : Service :=
  mkService
    (fun _ => Ret (mkBatch "batch_1" "in_progress"))
    (fun _ _ => Ret (mkBatch "batch_1" "ended"))
    (fun _ => Ret [mkResult "req_1" "canceled" []]).

End Demo.

(** More services: one that never ends, one that is canceling. *)

Module Stuck.

(** The batch never leaves "in_progress". *)
Definition svc_stuck : Service :=
  mkService
    (fun _ => Ret (mkBatch "batch_1" "in_progress"))
    (fun _ _ => Ret (mkBatch "batch_1" "in_progress"))
    (fun _ => Ret []).

(** Three polls answer "canceling", then the batch has ended. *)
Definition svc_canceling : Service :=
  mkService
    (fun _ => Ret (mkBatch "batch_1" "in_progress"))
    (fun _ n => if decide (n < 3) then Ret (mkBatch "batch_1" "canceling")
                else Ret (mkBatch "batch_1" "ended"))
    (fun _ => Ret [mkResult "req_1" "canceled" []]).

End Stuck.

Import Demo.
Import Stuck.

(** * Properties *)

Set Warnings "-clear-no-such-hyp".

(** ** Paths *)

Lemma substring_all (s : string) : substring 0 (String.length s) s = s.
Proof. induction s; simpl; [done|]. by f_equal. Qed.

Lemma substring_split (s : string) (i : nat) :
  (i ≤ String.length s)%nat →
  substring 0 i s +:+ substring i (String.length s - i) s = s.
Proof.
  revert i. induction s as [|a s IH]; intros [|i] Hi; simpl in *; try lia.
  - done.
  - change (String a (substring 0 (String.length s) s) = String a s).
    by rewrite substring_all.
  - change (String a (substring 0 i s +:+
                      substring i (String.length s - i) s) = String a s).
    f_equal. apply IH. lia.
Qed.

Lemma rfind_from_bound c s pos i :
  rfind_from c s pos = Some i → (pos ≤ i < pos + String.length s)%nat.
Proof.
  revert pos. induction s as [|a s IH]; intros pos; simpl; [done|].
  destruct (rfind_from c s (S pos)) as [j|] eqn:E.
  - intros [= <-]. apply IH in E. lia.
  - case_decide; [|done]. intros [= <-]. lia.
Qed.

Lemma ext_index_bound nm i : ext_index nm = Some i → (0 < i < String.length nm - 1)%nat.
Proof.
  unfold ext_index. destruct (rfind _ nm) as [j|]; [|done].
  destruct (bool_decide (0 < j)) eqn:E1, (bool_decide (j < String.length nm - 1)) eqn:E2;
    simpl; try done.
  intros [= <-]. apply bool_decide_eq_true in E1, E2. lia.
Qed.

Lemma stem_suffix (nm : string) : stem_of nm +:+ suffix_of nm = nm.
Proof.
  unfold stem_of, suffix_of. destruct (ext_index nm) as [i|] eqn:E.
  - apply substring_split. apply ext_index_bound in E. lia.
  - clear. induction nm as [|a nm IH]; [done|].
    change (String a (nm +:+ "") = String a nm). by f_equal.
Qed.

Lemma with_name_Some p n q :
  with_name p n = Some q → name p ≠ "" ∧ name q = n ∧ parent q = parent p.
Proof.
  unfold with_name. case_decide; [done|]. intros [= <-]. split; [done|].
  unfold name, parent. simpl. rewrite last_last.
  split; [done|]. f_equal. by rewrite removelast_last.
Qed.

Lemma with_name_named p n : name p ≠ "" → is_Some (with_name p n).
Proof. unfold with_name. intros. case_decide; [done|]. eauto. Qed.

(** ** Reading files and preparing requests *)

Lemma add_events_nil st : add_events [] st = st.
Proof. destruct st. unfold add_events. simpl. by rewrite app_nil_r. Qed.

Lemma add_events_app es1 es2 st :
  add_events es2 (add_events es1 st) = add_events (es1 ++ es2) st.
Proof. unfold add_events. simpl. by rewrite app_assoc. Qed.

Lemma read_file_content_eq p st :
  read_file_content p st = (Ret (content_of st p), add_events (read_events st p) st).
Proof.
  unfold read_file_content, try_except, open_read, content_of, read_events.
  case_decide; [done|].
  destruct (files st !! p); simpl; [|done].
  by rewrite add_events_nil.
Qed.

Lemma kept_cons self st idx f rest :
  kept self st idx (f :: rest) =
  if decide (has_text self st f) then (idx, f) :: kept self st (S idx) rest
  else kept self st (S idx) rest.
Proof. unfold kept. simpl. rewrite filter_cons. simpl. done. Qed.

Lemma kept_add_events self es st : kept self (add_events es st) = kept self st.
Proof. reflexivity. Qed.

Lemma kept_set_mapping self m st : kept self (set_mapping m st) = kept self st.
Proof. reflexivity. Qed.

Lemma request_of_add_events self es st :
  request_of self (add_events es st) = request_of self st.
Proof. reflexivity. Qed.

Lemma request_of_set_mapping self m st :
  request_of self (set_mapping m st) = request_of self st.
Proof. reflexivity. Qed.

Lemma prepare_events_add_events self es st :
  prepare_events self (add_events es st) = prepare_events self st.
Proof. reflexivity. Qed.

Lemma prepare_events_set_mapping self m st :
  prepare_events self (set_mapping m st) = prepare_events self st.
Proof. reflexivity. Qed.

Create Rewrite HintDb fs_only.

#[local] Hint Rewrite kept_add_events kept_set_mapping request_of_add_events
  request_of_set_mapping prepare_events_add_events prepare_events_set_mapping
  : fs_only.

Lemma prepare_loop_eq self fl : ∀ idx reqs st,
  prepare_loop self idx fl reqs st =
  (Ret (reqs ++ map (request_of self st) (kept self st idx fl)),
   add_events (prepare_events self st fl)
     (set_mapping (record_ids (custom_id_to_filename st) (kept self st idx fl)) st)).
Proof.
  induction fl as [|f rest IH]; intros idx reqs st.
  - simpl. unfold ret, kept, prepare_events. simpl.
    rewrite app_nil_r, add_events_nil. by destruct st.
  - simpl. unfold bind at 1. rewrite read_file_content_eq, kept_cons.
    destruct (decide (has_text self st f)) as [H|H]; unfold has_text in H.
    + rewrite decide_False by done.
      unfold bind, mapping_set. rewrite IH.
      autorewrite with fs_only.
      rewrite <- app_assoc. f_equal.
      unfold prepare_events, add_events, set_mapping. simpl. f_equal.
      by rewrite app_assoc.
    + rewrite decide_True by (by destruct (decide (content_of st (joinpath (base_dir self) f) = ""))).
      rewrite IH.
      autorewrite with fs_only.
      f_equal.
      unfold prepare_events, add_events, set_mapping. simpl. f_equal.
      by rewrite app_assoc.
Qed.

Lemma prepare_batch_requests_eq self fl st :
  prepare_batch_requests self fl st =
  (Ret (map (request_of self st) (kept self st 1 fl)),
   add_events (prepare_events self st fl)
     (set_mapping (record_ids ∅ (kept self st 1 fl)) st)).
Proof.
  unfold prepare_batch_requests, bind, mapping_reset. by rewrite prepare_loop_eq.
Qed.

#[global] Instance req_id_inj : Inj (=) (=) req_id.
Proof.
  intros i j H. unfold req_id in H.
  apply (inj (String.append "req_")) in H. by apply (inj pretty) in H.
Qed.

Lemma kept_bounds self st fl : ∀ idx,
  Forall (fun x => idx ≤ x.1 < idx + length fl) (kept self st idx fl).
Proof.
  induction fl as [|f rest IH]; intros idx; [constructor|].
  rewrite kept_cons. specialize (IH (S idx)).
  assert (Forall (fun x : nat * string => idx ≤ x.1 < idx + length (f :: rest))
                 (kept self st (S idx) rest)) as Hrest.
  { eapply Forall_impl; [exact IH|]. simpl. intros; lia. }
  case_decide; [constructor; [simpl; lia|]|]; done.
Qed.

Lemma kept_sorted self st fl : ∀ idx,
  StronglySorted lt ((kept self st idx fl).*1).
Proof.
  induction fl as [|f rest IH]; intros idx; [constructor|].
  rewrite kept_cons. case_decide; [|by apply IH].
  rewrite fmap_cons. constructor; [by apply IH|]. simpl.
  apply Forall_fmap. eapply Forall_impl; [apply kept_bounds|].
  simpl. intros; lia.
Qed.

Lemma kept_length self st fl : ∀ idx,
  length (kept self st idx fl) = length (filter (has_text self st) fl).
Proof.
  induction fl as [|f rest IH]; intros idx; [done|].
  rewrite kept_cons, filter_cons. case_decide; simpl; by rewrite IH.
Qed.

Lemma kept_all self st fl : ∀ idx,
  Forall (has_text self st) fl → (kept self st idx fl).*1 = seq idx (length fl).
Proof.
  induction fl as [|f rest IH]; intros idx Hall; [done|].
  apply Forall_cons in Hall as [Hf Hrest].
  rewrite kept_cons, decide_True by done. simpl. f_equal. by apply IH.
Qed.

Lemma kept_elem self st fl : ∀ idx i f,
  (i, f) ∈ kept self st idx fl ↔
  idx ≤ i ∧ fl !! (i - idx) = Some f ∧ has_text self st f.
Proof.
  induction fl as [|g rest IH]; intros idx i f.
  - unfold kept. simpl. rewrite filter_nil. split; [by intros ?%elem_of_nil|].
    by intros (_ & ? & _).
  - rewrite kept_cons. split.
    + intros Hin. 
      assert ((i, f) = (idx, g) ∧ has_text self st g ∨ (i, f) ∈ kept self st (S idx) rest) as [[[= -> ->] Ht]|Hr].
      { case_decide; [apply elem_of_cons in Hin as [?|?]|]; eauto. }
      * rewrite Nat.sub_diag. done.
      * apply IH in Hr as (? & Hl & ?). split; [lia|]. split; [|done].
        replace (i - idx) with (S (i - S idx)) by lia. done.
    + intros (Hle & Hl & Ht).
      destruct (decide (i = idx)) as [->|Hne].
      * rewrite Nat.sub_diag in Hl. injection Hl as ->.
        rewrite decide_True by done. apply elem_of_cons; by left.
      * replace (i - idx) with (S (i - S idx)) in Hl by lia. simpl in Hl.
        assert ((i, f) ∈ kept self st (S idx) rest) by (apply IH; split; [lia|done]).
        case_decide; [apply elem_of_cons; by right|done].
Qed.

Lemma sorted_lt_NoDup (l : list nat) : StronglySorted lt l → NoDup l.
Proof.
  induction 1 as [|x l Hs IH Hall]; constructor; [|done].
  intros Hin. eapply Forall_forall in Hall; [|exact Hin]. lia.
Qed.

Lemma record_ids_notin l : ∀ m k,
  k ∉ (req_id <$> l.*1) → record_ids m l !! k = m !! k.
Proof.
  induction l as [|x l IH]; intros m k Hk; [done|].
  unfold record_ids. simpl. fold (record_ids (<[req_id x.1:=x.2]> m) l).
  rewrite !fmap_cons in Hk. apply not_elem_of_cons in Hk as [Hne Hk].
  rewrite IH by done. by rewrite lookup_insert_ne.
Qed.

Lemma record_ids_lookup l : ∀ m i f,
  NoDup (l.*1) → (i, f) ∈ l → record_ids m l !! req_id i = Some f.
Proof.
  induction l as [|x l IH]; intros m i f Hnd Hin; [by apply elem_of_nil in Hin|].
  unfold record_ids. simpl. fold (record_ids (<[req_id x.1:=x.2]> m) l).
  rewrite fmap_cons in Hnd. apply NoDup_cons in Hnd as [Hx Hnd].
  apply elem_of_cons in Hin as [<-|Hin]; [|by apply IH].
  simpl in *. rewrite record_ids_notin; [by rewrite lookup_insert_eq|].
  by intros Hin%(list_elem_of_fmap_inj_2 req_id).
Qed.

Lemma record_ids_dom l : ∀ m,
  dom (record_ids m l) = list_to_set (req_id <$> l.*1) ∪ dom m.
Proof.
  induction l as [|x l IH]; intros m; [set_solver|].
  unfold record_ids. simpl. fold (record_ids (<[req_id x.1:=x.2]> m) l).
  rewrite IH, dom_insert_L. set_solver.
Qed.

Lemma request_ids self st l :
  custom_id <$> (map (request_of self st) l) = req_id <$> l.*1.
Proof. induction l as [|x l IH]; [done|]. simpl. by f_equal. Qed.

(** ** The polling loop *)

(** Two states built with the setters are equal when their fields are. *)
Ltac state_eq :=
  unfold add_events, set_files, set_mapping, set_clock, set_polls; simpl;
  f_equal; repeat rewrite <- app_assoc; try done.

Section Waiting.

Context (svc : Service) (b : string).

Lemma loop_body_waiting self processed st :
  answers svc b (polls st) (fun s => s ≠ "ended") →
  loop_body self svc b processed st = (Ret None, waiting_step svc b st).
Proof.
  intros (mb & Hmb & Hs).
  unfold loop_body, bind, retrieve, waiting_step. rewrite Hmb.
  unfold logging_info, emit. simpl.
  destruct (decide (processing_status mb = "in_progress")) as [E|E].
  - unfold sleep, ret. f_equal. state_eq.
  - rewrite decide_False by done. unfold ret. f_equal. state_eq.
Qed.

Lemma waiting_step_polls st :
  answers svc b (polls st) (fun s => s ≠ "ended") →
  polls (waiting_step svc b st) = S (polls st).
Proof.
  intros (mb & Hmb & _). unfold waiting_step. rewrite Hmb. by case_decide.
Qed.

Lemma while_loop_wait self fl processed n : ∀ st fuel,
  size processed < length fl →
  (∀ i, i < n → answers svc b (polls st + i) (fun s => s ≠ "ended")) →
  while_loop (n + fuel) self svc b fl processed st =
  while_loop fuel self svc b fl processed (waited svc b n st).
Proof.
  induction n as [|n IH]; intros st fuel Hsz Hw; [done|].
  assert (answers svc b (polls st) (fun s => s ≠ "ended")) as H0.
  { specialize (Hw 0 ltac:(lia)). by rewrite Nat.add_0_r in Hw. }
  simpl. rewrite decide_True by done.
  rewrite loop_body_waiting by done.
  apply IH; [done|]. intros i Hi.
  rewrite waiting_step_polls by done.
  specialize (Hw (S i) ltac:(lia)).
  by replace (S (polls st) + i) with (polls st + S i) by lia.
Qed.

(** What waiting leaves untouched, and what it adds. *)
Lemma waited_frame n : ∀ st,
  (∀ i, i < n → answers svc b (polls st + i) (fun s => s ≠ "ended")) →
  files (waited svc b n st) = files st ∧
  unreadable (waited svc b n st) = unreadable st ∧
  unwritable (waited svc b n st) = unwritable st ∧
  custom_id_to_filename (waited svc b n st) = custom_id_to_filename st ∧
  polls (waited svc b n st) = polls st + n ∧
  ∃ es, trace (waited svc b n st) = trace st ++ es ∧
        Forall (fun e => is_waiting_event e = true) es ∧
        length (poll_times es) = n.
Proof.
  induction n as [|n IH]; intros st Hw.
  - simpl. split_and!; try done; try lia. exists []. by rewrite app_nil_r.
  - assert (answers svc b (polls st) (fun s => s ≠ "ended")) as H0.
    { specialize (Hw 0 ltac:(lia)). by rewrite Nat.add_0_r in Hw. }
    simpl. destruct (IH (waiting_step svc b st)) as (Hf & Hr & Hu & Hm & Hp & es & Ht & Hes & Hlen).
    { intros i Hi. rewrite waiting_step_polls by done.
      specialize (Hw (S i) ltac:(lia)).
      by replace (S (polls st) + i) with (polls st + S i) by lia. }
    rewrite Hf, Hr, Hu, Hm, Hp, Ht, waiting_step_polls by done.
    destruct H0 as (mb & Hmb & _). unfold waiting_step. rewrite Hmb.
    case_decide; simpl; (split_and!; try done; try lia).
    + eexists. rewrite <- !app_assoc. split; [done|]. simpl.
      split; [by repeat constructor|]. simpl. by rewrite Hlen.
    + eexists. rewrite <- !app_assoc. split; [done|]. simpl.
      split; [by repeat constructor|]. simpl. by rewrite Hlen.
Qed.

(** Waiting on "in_progress" only: the clock and the poll times. *)
Lemma waited_in_progress n : ∀ st,
  (∀ i, i < n → answers svc b (polls st + i) (fun s => s = "in_progress")) →
  clock (waited svc b n st) = clock st + retry_interval * n ∧
  ∃ es, trace (waited svc b n st) = trace st ++ es ∧
        Forall (fun e => is_waiting_event e = true) es ∧
        poll_times es = (fun i => clock st + retry_interval * i) <$> seq 0 n.
Proof.
  induction n as [|n IH]; intros st Hw.
  - simpl. split; [lia|]. exists []. by rewrite app_nil_r.
  - assert (answers svc b (polls st) (fun s => s = "in_progress")) as (mb & Hmb & Hs).
    { specialize (Hw 0 ltac:(lia)). by rewrite Nat.add_0_r in Hw. }
    assert (waiting_step svc b st =
            add_events [EvRetrieve b (clock st);
                        EvLog INFO (BatchStatus (id mb) "in_progress");
                        EvSleep retry_interval]
              (set_clock (clock st + retry_interval) (set_polls (S (polls st)) st)))
      as Hstep.
    { unfold waiting_step. rewrite Hmb, Hs, decide_True by done. state_eq. }
    simpl. specialize (IH (waiting_step svc b st)). rewrite Hstep in *.
    destruct IH as (Hc & es & Ht & Hes & Hpt).
    { intros i Hi. simpl. specialize (Hw (S i) ltac:(lia)).
      by replace (S (polls st + i)) with (polls st + S i) by lia. }
    rewrite Hc, Ht. simpl. split; [unfold retry_interval; lia|].
    eexists. rewrite <- app_assoc. split; [done|]. simpl.
    split; [by repeat constructor|]. rewrite Hpt. f_equal.
    + unfold retry_interval. lia.
    + rewrite <- fmap_S_seq, <- list_fmap_compose. apply list_fmap_ext.
      intros _ i _. simpl. unfold retry_interval. lia.
Qed.

End Waiting.

Lemma waited_torn svc b n : ∀ st, torn (waited svc b n st) = torn st.
Proof.
  induction n as [|n IH]; intros st; [done|]. simpl. rewrite IH.
  unfold waiting_step. destruct (batches_retrieve svc b (polls st)); [|done].
  by case_decide.
Qed.

(** ** Handling the results *)

Lemma write_optimized_content_eq file_path q txt st :
  with_name file_path (optimized_name file_path) = Some q →
  write_optimized_content file_path txt st =
  (Ret tt,
   if decide (q ∈ unwritable st)
   then add_events [EvLog ERROR (ErrorWriting q (OSError q))] st
   else match torn st !! q with
        | Some k =>
            add_events [EvLog ERROR (ErrorWriting q (OSError q))]
                       (set_files (<[q := substring 0 k txt]> (files st)) st)
        | None =>
            add_events [EvWrite q txt; EvLog INFO (WroteOptimized q)]
                       (set_files (<[q := txt]> (files st)) st)
        end).
Proof.
  intros Hq. unfold write_optimized_content. rewrite Hq.
  unfold try_except, bind, open_write. case_decide; [done|].
  destruct (torn st !! q) as [k|]; [done|].
  unfold logging_info, emit. simpl. f_equal. state_eq.
Qed.

Lemma handle_result_failed self r processed st :
  r_type r = "errored" ∨ r_type r = "expired" →
  r_custom_id r ∉ processed →
  handle_result self r processed st =
  (Ret ({[r_custom_id r]} ∪ processed),
   add_events [EvLog ERROR (RequestFailed (r_custom_id r)); EvPbarUpdate 1] st).
Proof.
  intros Ht Hnew. unfold handle_result.
  rewrite decide_False by done.
  rewrite decide_False by (by destruct Ht as [-> | ->]).
  rewrite decide_True by done.
  unfold bind, logging_error, emit, ret. simpl. f_equal. state_eq.
Qed.

Lemma handle_result_succeeded self r processed st q txt rest :
  r_type r = "succeeded" →
  r_custom_id r ∉ processed →
  r_content r = txt :: rest →
  output_path self st (r_custom_id r) = Some q →
  handle_result self r processed st =
  (Ret ({[r_custom_id r]} ∪ processed), written q txt st).
Proof.
  intros Ht Hnew Hc Hq. unfold handle_result, output_path in *.
  rewrite decide_False by done. rewrite decide_True by done.
  unfold bind at 1. unfold mapping_get.
  destruct (custom_id_to_filename st !! r_custom_id r) as [filename|]; [|done].
  rewrite Hc. unfold bind, first_text, ret.
  erewrite write_optimized_content_eq by done.
  unfold written, emit.
  case_decide; [|destruct (torn st !! q)]; simpl; f_equal; state_eq.
Qed.

Lemma loop_body_ended self svc b processed st mb :
  batches_retrieve svc b (polls st) = Ret mb →
  processing_status mb = "ended" →
  loop_body self svc b processed st =
  match batches_results svc b with
  | Raise e => (Raise e, fetching b mb st)
  | Ret rs =>
      match for_results self rs processed (fetching b mb st) with
      | (Ret s, st') => (Ret (Some s), st')
      | (Raise e, st') => (Raise e, st')
      end
  end.
Proof.
  intros Hmb Hs. unfold loop_body, bind, retrieve. rewrite Hmb.
  unfold logging_info, emit. simpl.
  rewrite decide_False by (by rewrite Hs).
  rewrite decide_True by done.
  unfold results, bind, emit, lift. simpl.
  assert (add_events [EvResults b] (add_events [EvLog INFO (BatchStatus (id mb) (processing_status mb))]
            (add_events [EvRetrieve b (clock st)] (set_polls (S (polls st)) st)))
          = fetching b mb st) as -> by (unfold fetching; state_eq).
  destruct (batches_results svc b) as [rs|e]; [|done].
  by destruct (for_results self rs processed (fetching b mb st)) as [[s|e] st'].
Qed.

(** Processing results only appends events, and never polls. *)
Lemma handle_result_trace self r processed st :
  ∃ es, trace (handle_result self r processed st).2 = trace st ++ es ∧
        poll_times es = [].
Proof.
  unfold handle_result.
  case_decide; [exists []; by rewrite app_nil_r|].
  case_decide.
  - unfold bind at 1. unfold mapping_get.
    destruct (custom_id_to_filename st !! r_custom_id r) as [filename|];
      [|exists []; by rewrite app_nil_r].
    unfold bind at 1. destruct (r_content r) as [|txt rest];
      [exists []; by rewrite app_nil_r|]. simpl.
    unfold bind at 1.
    destruct (with_name (joinpath (base_dir self) filename)
                        (optimized_name (joinpath (base_dir self) filename)))
      as [q|] eqn:Hq.
    + erewrite write_optimized_content_eq by done.
      unfold bind, emit, ret.
      case_decide; [|destruct (torn st !! q)]; simpl; eexists;
        (rewrite <- ?app_assoc; split; [done|done]).
    + unfold write_optimized_content. rewrite Hq.
      exists []. by rewrite app_nil_r.
  - case_decide; [|exists []; by rewrite app_nil_r].
    unfold bind, logging_error, emit, ret. simpl. eexists.
    rewrite <- !app_assoc; split; [done|done].
Qed.

Lemma for_results_trace self rs : ∀ processed st,
  ∃ es, trace (for_results self rs processed st).2 = trace st ++ es ∧
        poll_times es = [].
Proof.
  induction rs as [|r rs IH]; intros processed st.
  - exists []. by rewrite app_nil_r.
  - simpl. unfold bind.
    destruct (handle_result_trace self r processed st) as (es1 & H1 & P1).
    destruct (handle_result self r processed st) as [[s|e] st1]; simpl in *.
    + destruct (IH s st1) as (es2 & H2 & P2). exists (es1 ++ es2).
      rewrite H2, H1, <- app_assoc. split; [done|].
      clear -P1 P2. induction es1 as [|[] es1 IHes]; simpl in *; try done; auto.
    + by exists es1.
Qed.

Lemma poll_times_app es1 es2 :
  poll_times (es1 ++ es2) = poll_times es1 ++ poll_times es2.
Proof. induction es1 as [|[] es1 IH]; simpl; by rewrite ?IH. Qed.

Lemma written_frame q txt st :
  custom_id_to_filename (written q txt st) = custom_id_to_filename st ∧
  unwritable (written q txt st) = unwritable st ∧
  (∀ p, p ≠ q → files (written q txt st) !! p = files st !! p) ∧
  files (written q txt st) !! q =
    (if decide (q ∈ unwritable st) then files st !! q
     else match torn st !! q with
          | Some k => Some (substring 0 k txt)
          | None => Some txt
          end).
Proof.
  unfold written. case_decide; [by split_and!|].
  destruct (torn st !! q) as [k|]; simpl.
  - split; [done|]. split; [done|]. split; [|by rewrite lookup_insert_eq].
    intros p Hp. by rewrite lookup_insert_ne.
  - split; [done|]. split; [done|]. split; [|by rewrite lookup_insert_eq].
    intros p Hp. by rewrite lookup_insert_ne.
Qed.

(** A write leaves the fault table alone, only adds to the trace, and logs
    its failure. *)
Lemma written_log q txt st :
  torn (written q txt st) = torn st ∧
  ∃ es, trace (written q txt st) = trace st ++ es ∧
        (write_fails st q → EvLog ERROR (ErrorWriting q (OSError q)) ∈ es).
Proof.
  unfold written, write_fails. case_decide as Hu.
  - split; [done|]. eexists. split; [done|]. intros _. apply list_elem_of_here.
  - destruct (torn st !! q) as [k|].
    + split; [done|]. eexists. split; [done|]. intros _. apply list_elem_of_here.
    + split; [done|]. eexists. split; [done|]. by intros [?|[? ?]].
Qed.

Lemma output_path_frame self st st' cid :
  custom_id_to_filename st' = custom_id_to_filename st →
  output_path self st' cid = output_path self st cid.
Proof. intros H. unfold output_path. by rewrite H. Qed.

Lemma outputs_frame self st st' rs :
  custom_id_to_filename st' = custom_id_to_filename st →
  outputs self st' rs = outputs self st rs.
Proof.
  intros H. unfold outputs. apply list_fmap_ext. intros _ r _.
  by apply output_path_frame.
Qed.

Lemma outputs_cons self st r rs :
  outputs self st (r :: rs) =
  output_path self st (r_custom_id r) :: outputs self st rs.
Proof. reflexivity. Qed.

Lemma for_results_cons self r rs processed st :
  for_results self (r :: rs) processed st =
  match handle_result self r processed st with
  | (Ret s, st1) => for_results self rs s st1
  | (Raise e, st1) => (Raise e, st1)
  end.
Proof. reflexivity. Qed.

Lemma for_results_succeeded self rs : ∀ processed st,
  Forall (deliverable self st) rs →
  NoDup (outputs self st rs) →
  Forall (fun r => r_custom_id r ∉ processed) rs →
  ∃ st', for_results self rs processed st =
           (Ret (list_to_set (r_custom_id <$> rs) ∪ processed), st') ∧
    custom_id_to_filename st' = custom_id_to_filename st ∧
    unwritable st' = unwritable st ∧
    torn st' = torn st ∧
    (∀ q, Some q ∉ outputs self st rs → files st' !! q = files st !! q) ∧
    (∃ es, trace st' = trace st ++ es) ∧
    Forall (fun r => ∃ q, output_path self st (r_custom_id r) = Some q ∧
                          delivered st st' q r ∧
                          (write_fails st q →
                           EvLog ERROR (ErrorWriting q (OSError q)) ∈ trace st'))
           rs.
Proof.
  induction rs as [|r rs IH]; intros processed st Hall Hnd Hnew.
  - exists st. simpl. unfold ret. split_and!; try done.
    + f_equal. f_equal. set_solver.
    + exists []. by rewrite app_nil_r.
  - apply Forall_cons in Hall as [(Ht & Hc & [q Hq]) Hall].
    apply Forall_cons in Hnew as [Hr Hnew].
    rewrite outputs_cons in Hnd. apply NoDup_cons in Hnd as [Hq_fresh Hnd].
    rewrite Hq in Hq_fresh.
    destruct (r_content r) as [|txt rest] eqn:Hcont; [done|].
    destruct (written_frame q txt st) as (Hm1 & Hu1 & Hother & Hq1).
    destruct (written_log q txt st) as (Ht1 & es1 & Htr1 & Hlog1).
    rewrite for_results_cons.
    erewrite handle_result_succeeded by done.
    destruct (IH ({[r_custom_id r]} ∪ processed) (written q txt st))
      as (st' & Hrun & Hm & Hu & Htn & Hkeep & (es2 & Htr2) & Hdel).
    { eapply Forall_impl; [exact Hall|]. intros r' (? & ? & ?).
      split_and!; try done. by rewrite (output_path_frame _ st). }
    { by rewrite (outputs_frame _ st). }
    { apply Forall_forall. intros r' Hr'.
      apply not_elem_of_union. split.
      - intros Heq%elem_of_singleton. apply Hq_fresh.
        rewrite <- Hq, <- Heq. unfold outputs.
        by apply (list_elem_of_fmap_2 (fun r => output_path self st (r_custom_id r))).
      - by eapply Forall_forall in Hnew. }
    rewrite (outputs_frame _ st) in Hkeep by done.
    exists st'. split_and!.
    + rewrite Hrun. f_equal. f_equal. set_solver.
    + congruence.
    + congruence.
    + congruence.
    + intros p Hp. rewrite outputs_cons, Hq in Hp.
      apply not_elem_of_cons in Hp as [Hne Hp].
      rewrite Hkeep by done. apply Hother. congruence.
    + exists (es1 ++ es2). by rewrite Htr2, Htr1, app_assoc.
    + constructor.
      * exists q. split; [done|]. split.
        -- unfold delivered. rewrite Hkeep by done. rewrite Hq1, Hcont.
           destruct (decide (q ∈ unwritable st)); [done|].
           by destruct (torn st !! q).
        -- intros Hfail. rewrite Htr2, Htr1.
           apply elem_of_app. left. apply elem_of_app. right. by apply Hlog1.
      * apply Forall_forall. intros r' Hr'.
        eapply Forall_forall in Hdel as (q' & Hq' & Hd & Hlog'); [|exact Hr'].
        rewrite (output_path_frame _ st) in Hq' by done.
        exists q'. split; [done|]. split.
        -- unfold delivered in *.
           rewrite Hd, Hu1, Ht1. destruct (decide (q' ∈ unwritable st)); [|done].
           apply Hother. intros ->. apply Hq_fresh.
           rewrite <- Hq'. unfold outputs.
           by apply (list_elem_of_fmap_2
                       (fun r => output_path self st (r_custom_id r))).
        -- intros Hfail. apply Hlog'. unfold write_fails in *.
           by rewrite Hu1, Ht1.
Qed.

(** ** Request preparation *)

(** The file reads back as non-empty text: it can be opened, exists and is
    not empty. *)
Lemma has_text_iff self st f :
  has_text self st f ↔
  ((joinpath (base_dir self) f ∉ unreadable st) ∧
   ∃ s, files st !! joinpath (base_dir self) f = Some s ∧ s ≠ "").
Proof.
  unfold has_text, content_of. case_decide.
  - split; [done|]. by intros [? _].
  - destruct (files st !! joinpath (base_dir self) f) as [s|]; simpl.
    + split; [eauto|]. by intros (_ & ? & [= <-] & ?).
    + split; [done|]. by intros (_ & ? & ? & _).
Qed.

Lemma kept_files self st fl idx x :
  x ∈ kept self st idx fl → x.2 ∈ fl ∧ has_text self st x.2.
Proof.
  destruct x as [i f]. intros (_ & Hl & Ht)%kept_elem. split; [|done].
  by eapply list_elem_of_lookup_2.
Qed.

(** C3: the requests are as many as the files that read back as non-empty
    text, each request carries the text of such a file, and preparation
    returns normally whatever the files are. *)
Theorem request_count_matches_readable_files self fl st :
  ∃ reqs st',
    prepare_batch_requests self fl st = (Ret reqs, st') ∧
    length reqs = length (filter (has_text self st) fl) ∧
    Forall (fun q => ∃ f, f ∈ fl ∧ has_text self st f ∧
              messages q =
                [mkMessage "user" "text"
                   (USER_PREFIX +:+ content_of st (joinpath (base_dir self) f))])
           reqs ∧
    files st' = files st.
Proof.
  eexists _, _. split; [apply prepare_batch_requests_eq|].
  split_and!; [|  |done].
  - by rewrite length_map, kept_length.
  - apply Forall_forall. intros q (x & -> & Hx)%list_elem_of_fmap.
    apply kept_files in Hx as [? ?]. by exists x.2.
Qed.

(** C2, as stated, fails: an empty first file leaves a gap, the only request
    is req_2. *)
Lemma custom_ids_have_gaps :
  ∃ reqs st',
    prepare_batch_requests self0 ["e.md"; "a.md"] st0 = (Ret reqs, st') ∧
    custom_id <$> reqs = ["req_2"] ∧
    ¬ sequential (custom_id <$> reqs).
Proof.
  eexists _, _. split; [apply prepare_batch_requests_eq|].
  split; [by vm_compute|]. by vm_compute.
Qed.

(** C2, amended: each request's id is req_i for the 1-based position i of its
    file in the input list; the ids are pairwise distinct and follow the list
    order with increasing positions; when every file has text the ids
    are req_1 .. req_n without a gap. *)
Theorem custom_ids_follow_positions self fl st :
  ∃ reqs st' idxs,
    prepare_batch_requests self fl st = (Ret reqs, st') ∧
    custom_id <$> reqs = req_id <$> idxs ∧
    StronglySorted lt idxs ∧
    NoDup (custom_id <$> reqs) ∧
    (∀ i, i ∈ idxs ↔
          1 ≤ i ∧ ∃ f, fl !! (i - 1) = Some f ∧ has_text self st f) ∧
    (Forall (has_text self st) fl → sequential (custom_id <$> reqs)).
Proof.
  eexists _, _, ((kept self st 1 fl).*1).
  split; [apply prepare_batch_requests_eq|].
  pose proof (kept_sorted self st fl 1) as Hs.
  split_and!.
  - apply request_ids.
  - done.
  - rewrite request_ids. apply NoDup_fmap_2; [apply _|]. by apply sorted_lt_NoDup.
  - intros i. split.
    + intros ([j f] & -> & (? & ? & ?)%kept_elem)%list_elem_of_fmap. eauto.
    + intros (? & f & ? & ?).
      apply list_elem_of_fmap. exists (i, f). split; [done|]. by apply kept_elem.
  - intros Hall. unfold sequential.
    rewrite request_ids, kept_all by done. by rewrite !length_fmap, length_seq.
Qed.

(** C9: whatever the mapping held before, after the call its keys are exactly
    the custom ids of the returned requests, and looking up the custom id of
    any returned request yields one of the input filenames. *)
Theorem mapping_keys_are_request_ids self fl st :
  ∃ reqs st',
    prepare_batch_requests self fl st = (Ret reqs, st') ∧
    dom (custom_id_to_filename st') = list_to_set (custom_id <$> reqs) ∧
    Forall (fun q => ∃ f, f ∈ fl ∧ mapping_get (custom_id q) st' = (Ret f, st'))
           reqs.
Proof.
  eexists _, _. split; [apply prepare_batch_requests_eq|]. split.
  - simpl. rewrite record_ids_dom, request_ids. set_solver.
  - apply Forall_forall. intros q (x & -> & Hx)%list_elem_of_fmap.
    exists x.2. split; [by eapply kept_files|].
    unfold mapping_get. simpl. destruct x as [i f]. simpl.
    erewrite record_ids_lookup; [done| |done].
    apply sorted_lt_NoDup, kept_sorted.
Qed.

(** ** A run of the batch *)

Lemma process_batch_results_eq fuel self svc b fl st :
  process_batch_results fuel self svc b fl st =
  match while_loop fuel self svc b fl ∅
          (add_events [EvPbarOpen (length fl)] st) with
  | None => None
  | Some (Ret _, st1) => Some (Ret tt, add_events [EvPbarClose] st1)
  | Some (Raise e, st1) =>
      Some (Raise e, add_events [EvLog ERROR (ErrorInBatch e)] st1)
  end.
Proof.
  unfold process_batch_results, try_except_f, bind_f, lift_f, emit. simpl.
  by destruct (while_loop fuel self svc b fl ∅ _) as [[[s|e] st1]|].
Qed.

Lemma process_files_eq fuel self svc fl st :
  process_files fuel self svc fl st =
  let reqs := map (request_of self st) (kept self st 1 fl) in
  let st1 := add_events (prepare_events self st fl)
               (set_mapping (record_ids ∅ (kept self st 1 fl)) st) in
  match reqs with
  | [] => Some (Ret tt, add_events [EvLog ERROR NoValidFiles] st1)
  | _ :: _ =>
      match batches_create svc reqs with
      | Raise e =>
          Some (Ret tt,
                add_events [EvCreate reqs; EvLog ERROR (ErrorInBatch e)] st1)
      | Ret mb =>
          match process_batch_results fuel self svc (id mb) fl
                  (add_events [EvCreate reqs] st1) with
          | None => None
          | Some (Ret _, st2) => Some (Ret tt, st2)
          | Some (Raise e, st2) =>
              Some (Ret tt, add_events [EvLog ERROR (ErrorInBatch e)] st2)
          end
      end
  end.
Proof.
  unfold process_files, try_except_f, bind_f, lift_f.
  rewrite prepare_batch_requests_eq. simpl.
  destruct (map (request_of self st) (kept self st 1 fl)) as [|q reqs]; [done|].
  unfold create, bind, emit, lift. simpl.
  destruct (batches_create svc (q :: reqs)) as [mb|e].
  - by destruct (process_batch_results fuel self svc (id mb) fl _)
      as [[[[]|e] st2]|].
  - unfold logging_error, emit. f_equal. f_equal. state_eq.
Qed.

Lemma prepare_events_logs self st fl :
  Forall (fun e => is_service_call e = false) (prepare_events self st fl).
Proof.
  unfold prepare_events. induction fl as [|f fl IH]; [constructor|].
  simpl. apply Forall_app. split; [|done].
  unfold read_events. case_decide; [by repeat constructor|].
  destruct (files st !! _); by repeat constructor.
Qed.

(** C7: when no request was prepared, process_files logs the error and
    returns; what it added to the trace holds no call of the service. *)
Theorem no_requests_no_submission fuel self svc fl st :
  (prepare_batch_requests self fl st).1 = Ret [] →
  ∃ st' es,
    process_files fuel self svc fl st = Some (Ret tt, st') ∧
    trace st' = trace st ++ es ++ [EvLog ERROR NoValidFiles] ∧
    Forall (fun e => is_service_call e = false) es.
Proof.
  rewrite prepare_batch_requests_eq. simpl. intros [= Hreqs].
  rewrite process_files_eq. simpl. rewrite Hreqs.
  eexists _, _. split; [done|]. simpl. rewrite <- app_assoc.
  split; [done|]. apply prepare_events_logs.
Qed.

Lemma no_requests_no_submission_witness :
  (prepare_batch_requests self0 ["b.md"; "e.md"] st0).1 = Ret [] ∧
  ∃ st' es,
    process_files 0 self0 svc0 ["b.md"; "e.md"] st0 = Some (Ret tt, st') ∧
    trace st' = trace st0 ++ es ++ [EvLog ERROR NoValidFiles] ∧
    Forall (fun e => is_service_call e = false) es.
Proof.
  split; [by vm_compute|].
  apply (no_requests_no_submission 0 self0 svc0 ["b.md"; "e.md"] st0).
  by vm_compute.
Defined.

Lemma answers_weaken svc b n (P Q : string → Prop) :
  (∀ s, P s → Q s) → answers svc b n P → answers svc b n Q.
Proof. intros HPQ (mb & ? & ?). exists mb. eauto. Qed.

Lemma while_loop_ended fuel self svc b fl processed st mb :
  size processed < length fl →
  batches_retrieve svc b (polls st) = Ret mb →
  processing_status mb = "ended" →
  while_loop (S fuel) self svc b fl processed st =
  Some match batches_results svc b with
       | Raise e => (Raise e, fetching b mb st)
       | Ret rs => for_results self rs processed (fetching b mb st)
       end.
Proof.
  intros Hsz Hmb Hs. simpl. rewrite decide_True by done.
  erewrite loop_body_ended by done.
  destruct (batches_results svc b) as [rs|e]; [|done].
  by destruct (for_results self rs processed (fetching b mb st)) as [[s|e] st'].
Qed.

Lemma while_loop_raises fuel self svc b fl processed st e :
  size processed < length fl →
  batches_retrieve svc b (polls st) = Raise e →
  while_loop (S fuel) self svc b fl processed st =
  Some (Raise e,
        add_events [EvRetrieve b (clock st)] (set_polls (S (polls st)) st)).
Proof.
  intros Hsz He. simpl. rewrite decide_True by done.
  unfold loop_body, bind, retrieve. by rewrite He.
Qed.

Lemma nonempty_enters (fl : list string) : fl ≠ [] → size (∅ : gset string) < length fl.
Proof. rewrite size_empty. destruct fl; [done|simpl; lia]. Qed.

(** C8: an iteration that sees "in_progress" only polls, logs the status and
    sleeps five seconds; and when the status is "in_progress" for k polls and
    "ended" at the next, the results are fetched after exactly k+1 polls,
    made five seconds of sleep apart, with nothing but polls, status lines
    and sleeps before. *)
Theorem polls_spaced_by_retry_interval self svc b fl st k :
  fl ≠ [] →
  (∀ i, i < k → answers svc b (polls st + i) (fun s => s = "in_progress")) →
  answers svc b (polls st + k) (fun s => s = "ended") →
  (∀ processed st0 mb,
     batches_retrieve svc b (polls st0) = Ret mb →
     processing_status mb = "in_progress" →
     loop_body self svc b processed st0 =
     (Ret None,
      add_events [EvRetrieve b (clock st0);
                  EvLog INFO (BatchStatus (id mb) "in_progress");
                  EvSleep 5]
                 (set_clock (clock st0 + 5) (set_polls (S (polls st0)) st0)))) ∧
  ∀ fuel, k < fuel →
    ∃ out st' before after,
      process_batch_results fuel self svc b fl st = Some (out, st') ∧
      trace st' =
        trace st ++ [EvPbarOpen (length fl)] ++ before ++ [EvResults b] ++ after ∧
      Forall (fun e => is_waiting_event e = true) before ∧
      poll_times before = (fun i => clock st + 5 * i) <$> seq 0 (S k) ∧
      poll_times after = [].
Proof.
  intros Hfl Hwait (mb & Hmb & Hend). split.
  { intros processed st0 mb0 Hmb0 Hs0.
    rewrite loop_body_waiting by (exists mb0; by rewrite Hs0).
    unfold waiting_step. rewrite Hmb0, Hs0, decide_True by done.
    f_equal. unfold retry_interval. state_eq. }
  intros fuel Hfuel.
  replace fuel with (k + S (fuel - S k)) by lia.
  set (st1 := add_events [EvPbarOpen (length fl)] st).
  assert (∀ i, i < k → answers svc b (polls st1 + i) (fun s => s = "in_progress"))
    as Hwait1 by done.
  destruct (waited_in_progress svc b k st1 Hwait1) as (Hclock & es & Htr & Hes & Hpt).
  assert (∀ i, i < k → answers svc b (polls st1 + i) (fun s => s ≠ "ended"))
    as Hwait2.
  { intros i Hi. eapply answers_weaken; [|by apply Hwait1]. by intros s ->. }
  destruct (waited_frame svc b k st1 Hwait2) as (_ & _ & _ & _ & Hpolls & _).
  rewrite process_batch_results_eq. fold st1.
  rewrite while_loop_wait by (by apply nonempty_enters || done).
  erewrite while_loop_ended;
    [| by apply nonempty_enters | by rewrite Hpolls | done].
  set (st2 := fetching b mb (waited svc b k st1)).
  assert (∃ o st3 after,
            match batches_results svc b with
            | Ret rs => for_results self rs ∅ st2
            | Raise e => (Raise e, st2)
            end = (o, st3) ∧
            trace st3 = trace st2 ++ after ∧ poll_times after = [])
    as (o & st3 & after & -> & Htr3 & Hafter).
  { destruct (batches_results svc b) as [rs|e].
    - destruct (for_results_trace self rs ∅ st2) as (after & ? & ?).
      destruct (for_results self rs ∅ st2) as [o st3]. by exists o, st3, after.
    - exists (Raise e), st2, []. by rewrite app_nil_r. }
  assert (trace st2 =
          trace st ++ [EvPbarOpen (length fl)] ++
          (es ++ [EvRetrieve b (clock st + 5 * k);
                  EvLog INFO (BatchStatus (id mb) (processing_status mb))]) ++
          [EvResults b]) as Htr2.
  { unfold st2, fetching. simpl. rewrite Htr, Hclock. unfold st1. simpl.
    unfold retry_interval. rewrite <- !app_assoc. done. }
  assert (∃ x, poll_times [x] = [] ∧
            match Some (o, st3) with
            | Some (Ret _, st1) => Some (Ret tt, add_events [EvPbarClose] st1)
            | Some (Raise e, st1) =>
                Some (Raise e, add_events [EvLog ERROR (ErrorInBatch e)] st1)
            | None => None
            end = Some (match o with Ret _ => Ret tt | Raise e => Raise e end,
                        add_events [x] st3))
    as (x & Hx & ->).
  { destruct o as [s|e]; eexists; (split; [|reflexivity]); done. }
  exists (match o with Ret _ => Ret tt | Raise e => Raise e end),
         (add_events [x] st3),
         (es ++ [EvRetrieve b (clock st + 5 * k);
                 EvLog INFO (BatchStatus (id mb) (processing_status mb))]),
         (after ++ [x]).
  split; [done|]. split_and!.
  - simpl. rewrite Htr3, Htr2. by rewrite <- !app_assoc.
  - apply Forall_app. split; [done|]. by repeat constructor.
  - rewrite poll_times_app, Hpt, seq_S, fmap_app. simpl.
    by unfold retry_interval.
  - by rewrite poll_times_app, Hafter, Hx.
Qed.

Lemma polls_spaced_by_retry_interval_witness :
  ∃ out st' before after,
    process_batch_results 3 self0 svc0 "batch_1" ["a.md"] st1 =
      Some (out, st') ∧
    trace st' =
      trace st1 ++ [EvPbarOpen 1] ++ before ++ [EvResults "batch_1"] ++ after ∧
    Forall (fun e => is_waiting_event e = true) before ∧
    poll_times before = [0; 5; 10] ∧
    poll_times after = [].
Proof.
  destruct (polls_spaced_by_retry_interval self0 svc0 "batch_1" ["a.md"] st1 2)
    as [_ Hrun].
  - discriminate.
  - intros i Hi. exists (mkBatch "batch_1" "in_progress"). simpl.
    split; [|reflexivity]. destruct (decide (i < 2)); [reflexivity|lia].
  - exists (mkBatch "batch_1" "ended"). split; reflexivity.
  - apply (Hrun 3). lia.
Defined.

(** The guard of the loop body comes first: a result whose custom id is
    already marked processed is skipped before its outcome is looked at.  An
    "expired" result for a processed id changes nothing, and a pass over a
    succeeded and then an errored result for the same id logs no failure.
    Passes over results with distinct ids are treated at the end of the
    file. *)
Lemma repeated_failed_result_is_silent :
  handle_result self0 (mkResult "req_1" "expired" []) {["req_1"]} st1 =
    (Ret {["req_1"]}, st1) ∧
  ∃ st',
    for_results self0
      [mkResult "req_1" "succeeded" ["Hi"]; mkResult "req_1" "errored" []]
      ∅ st1 = (Ret {["req_1"]}, st') ∧
    errors_logged (trace st') = [] ∧
    progress (trace st') = 1.
Proof.
  split; [by vm_compute|]. eexists. split; [by vm_compute|].
  split; by vm_compute.
Qed.

(** One iteration on a failed result: a result with outcome "errored" or
    "expired" whose custom id is not yet marked processed writes no file,
    logs the failure, marks the id processed, and the remaining results are
    processed after it. *)
Lemma failed_result_logged_and_skipped self r rest processed st :
  r_type r = "errored" ∨ r_type r = "expired" →
  r_custom_id r ∉ processed →
  ∃ st',
    handle_result self r processed st =
      (Ret ({[r_custom_id r]} ∪ processed), st') ∧
    files st' = files st ∧
    trace st' =
      trace st ++ [EvLog ERROR (RequestFailed (r_custom_id r)); EvPbarUpdate 1] ∧
    for_results self (r :: rest) processed st =
      for_results self rest ({[r_custom_id r]} ∪ processed) st'.
Proof.
  intros Ht Hnew. eexists. split; [by apply handle_result_failed|].
  split_and!; try done.
  rewrite for_results_cons. by rewrite handle_result_failed.
Qed.

Lemma output_path_sibling self st cid q :
  output_path self st cid = Some q → optimized_sibling self st cid q.
Proof.
  unfold output_path, optimized_sibling.
  destruct (custom_id_to_filename st !! cid) as [filename|]; [|done].
  intros (_ & Hn & Hp)%with_name_Some. exists filename.
  split_and!; try done. apply stem_suffix.
Qed.

(** C4, as stated, fails: every result succeeded and the run ends normally,
    yet the output file does not exist because it could not be written. *)
Lemma succeeded_result_may_leave_no_file :
  ∃ st',
    process_batch_results 1 self0 svc_ended "batch_1" ["a.md"] st1_readonly =
      Some (Ret tt, st') ∧
    batches_results svc_ended "batch_1" =
      Ret [mkResult "req_1" "succeeded" ["Hi"]] ∧
    output_path self0 st1_readonly "req_1" = Some (parse "/data/a-OPTIMIZED.md") ∧
    files st' !! parse "/data/a-OPTIMIZED.md" = None.
Proof. eexists. split; [by vm_compute|]. split_and!; by vm_compute. Qed.

(** C4, amended: when the batch ends after finitely many polls and every
    result is succeeded, carries a text block, maps to a named file and has
    an output path of its own, the run returns normally with enough fuel and
    each output path is the sibling named stem-OPTIMIZED-suffix.  The file
    there holds exactly the returned text when the write goes through.  When
    the path cannot be opened the file is left as it was; when the write
    fails after the open, the file has been created or truncated and holds
    the characters of the text that got through.  In both cases the error is
    logged. *)
Theorem succeeded_batch_delivered self svc b fl st n rs :
  fl ≠ [] →
  (∀ i, i < n → answers svc b (polls st + i) (fun s => s ≠ "ended")) →
  answers svc b (polls st + n) (fun s => s = "ended") →
  batches_results svc b = Ret rs →
  Forall (deliverable self st) rs →
  NoDup (outputs self st rs) →
  ∀ fuel, n < fuel →
    ∃ st',
      process_batch_results fuel self svc b fl st = Some (Ret tt, st') ∧
      Forall (fun r => ∃ q, optimized_sibling self st (r_custom_id r) q ∧
                            delivered st st' q r ∧
                            (write_fails st q →
                             EvLog ERROR (ErrorWriting q (OSError q))
                               ∈ trace st')) rs.
Proof.
  intros Hfl Hwait (mb & Hmb & Hend) Hrs Hall Hnd fuel Hfuel.
  replace fuel with (n + S (fuel - S n)) by lia.
  set (st1 := add_events [EvPbarOpen (length fl)] st).
  assert (∀ i, i < n → answers svc b (polls st1 + i) (fun s => s ≠ "ended"))
    as Hwait1 by done.
  destruct (waited_frame svc b n st1 Hwait1)
    as (Hf & _ & Hu & Hm & Hpolls & _).
  pose proof (waited_torn svc b n st1) as Htn.
  rewrite process_batch_results_eq. fold st1.
  rewrite while_loop_wait by (by apply nonempty_enters || done).
  erewrite while_loop_ended;
    [| by apply nonempty_enters | by rewrite Hpolls | done].
  rewrite Hrs.
  set (st2 := fetching b mb (waited svc b n st1)).
  assert (custom_id_to_filename st2 = custom_id_to_filename st) as Hm2 by done.
  assert (unwritable st2 = unwritable st ∧ torn st2 = torn st ∧
          files st2 = files st) as (Hu2 & Ht2 & Hf2).
  { change (unwritable st2) with (unwritable (waited svc b n st1)).
    change (torn st2) with (torn (waited svc b n st1)).
    change (files st2) with (files (waited svc b n st1)).
    by rewrite Hu, Htn, Hf. }
  destruct (for_results_succeeded self rs ∅ st2)
    as (st3 & -> & _ & _ & _ & _ & _ & Hdel).
  { eapply Forall_impl; [exact Hall|]. intros r (? & ? & ?).
    split_and!; try done. by rewrite (output_path_frame _ st). }
  { by rewrite (outputs_frame _ st). }
  { apply Forall_forall. intros r _. apply not_elem_of_empty. }
  eexists. split; [done|].
  eapply Forall_impl; [exact Hdel|]. intros r (q & Hq & Hd & Hlog).
  rewrite (output_path_frame _ st) in Hq by done.
  exists q. split; [by apply output_path_sibling|]. split.
  - unfold delivered in *. simpl. by rewrite Hd, Hu2, Ht2, Hf2.
  - intros Hfail. simpl. apply elem_of_app. left. apply Hlog.
    unfold write_fails in *. by rewrite Hu2, Ht2.
Qed.

Lemma succeeded_batch_delivered_witness :
  ∃ st',
    process_batch_results 3 self0 svc0 "batch_1" ["a.md"] st1 =
      Some (Ret tt, st') ∧
    Forall (fun r => ∃ q, optimized_sibling self0 st1 (r_custom_id r) q ∧
                          delivered st1 st' q r ∧
                          (write_fails st1 q →
                           EvLog ERROR (ErrorWriting q (OSError q))
                             ∈ trace st'))
           [mkResult "req_1" "succeeded" ["Hi"]].
Proof.
  apply (succeeded_batch_delivered self0 svc0 "batch_1" ["a.md"] st1 2
           [mkResult "req_1" "succeeded" ["Hi"]]).
  - discriminate.
  - intros i Hi. exists (mkBatch "batch_1" "in_progress"). simpl.
    split; [|discriminate]. destruct (decide (i < 2)); [reflexivity|lia].
  - exists (mkBatch "batch_1" "ended"). split; reflexivity.
  - reflexivity.
  - repeat constructor; [discriminate|]. exists (parse "/data/a-OPTIMIZED.md").
    by vm_compute.
  - vm_compute. repeat constructor; set_solver.
  - lia.
Defined.

(** A write that fails after the open: a-OPTIMIZED.md held "old text", the
    run ends normally, and the file holds the one character that got
    through. *)
Example torn_write_leaves_a_prefix :
  ∃ st',
    process_batch_results 1 self0 svc_ended "batch_1" ["a.md"] st1_torn =
      Some (Ret tt, st') ∧
    files st1_torn !! parse "/data/a-OPTIMIZED.md" = Some "old text" ∧
    files st' !! parse "/data/a-OPTIMIZED.md" = Some "H" ∧
    errors_logged (trace st') =
      [ErrorWriting (parse "/data/a-OPTIMIZED.md")
                    (OSError (parse "/data/a-OPTIMIZED.md"))].
Proof.
  eexists. split; [by vm_compute|]. split; [by vm_compute|].
  split; by vm_compute.
Qed.

(** The scenario of the specification: a.md holds "Hello", b.md is missing;
    one request is built, its result "Hi" lands in a-OPTIMIZED.md and nothing
    is created for b.md. *)
Example scenario_one_file_one_missing :
  ∃ reqs st1 st',
    prepare_batch_requests self0 ["a.md"; "b.md"] st0 = (Ret reqs, st1) ∧
    custom_id <$> reqs = ["req_1"] ∧
    process_files 1 self0 svc_ended ["a.md"; "b.md"] st0 = Some (Ret tt, st') ∧
    files st' !! parse "/data/a-OPTIMIZED.md" = Some "Hi" ∧
    files st' !! parse "/data/b-OPTIMIZED.md" = None.
Proof.
  eexists _, _, _. split; [apply prepare_batch_requests_eq|].
  split; [by vm_compute|]. split; [by vm_compute|]. split; by vm_compute.
Qed.

(** C6, as stated, fails: the service raises at submission, the error is
    logged, and process_files returns normally to its caller. *)
Lemma submission_error_does_not_surface :
  ∃ st',
    batches_create svc_down
      (map (request_of self0 st0) (kept self0 st0 1 ["a.md"])) =
      Raise (APIError "overloaded") ∧
    process_files 1 self0 svc_down ["a.md"] st0 = Some (Ret tt, st') ∧
    errors_logged (trace st') = [ErrorInBatch (APIError "overloaded")].
Proof. eexists. split; [done|]. split; by vm_compute. Qed.

(** C6, amended: process_files never passes an exception on to its caller.
    When the service raises at submission, the run stops there with the error
    logged.  When it raises in the polling loop, at a status check or when the
    results are fetched, process_batch_results logs the error and raises it to
    process_files, which logs it again and returns normally. *)
Theorem service_errors_logged_not_surfaced self svc fl :
  (∀ fuel st out st',
     process_files fuel self svc fl st = Some (out, st') → out = Ret tt) ∧
  (∀ fuel st reqs st1 e,
     prepare_batch_requests self fl st = (Ret reqs, st1) →
     reqs ≠ [] →
     batches_create svc reqs = Raise e →
     process_files fuel self svc fl st =
       Some (Ret tt,
             add_events [EvCreate reqs; EvLog ERROR (ErrorInBatch e)] st1)) ∧
  (∀ b st n e,
     fl ≠ [] →
     (∀ i, i < n → answers svc b (polls st + i) (fun s => s ≠ "ended")) →
     batches_retrieve svc b (polls st + n) = Raise e ∨
     (answers svc b (polls st + n) (fun s => s = "ended") ∧
      batches_results svc b = Raise e) →
     ∀ fuel, n < fuel →
       ∃ st' es,
         process_batch_results fuel self svc b fl st = Some (Raise e, st') ∧
         trace st' = trace st ++ es ++ [EvLog ERROR (ErrorInBatch e)]) ∧
  (∀ fuel st reqs st1 mb e st2,
     prepare_batch_requests self fl st = (Ret reqs, st1) →
     reqs ≠ [] →
     batches_create svc reqs = Ret mb →
     process_batch_results fuel self svc (id mb) fl
       (add_events [EvCreate reqs] st1) = Some (Raise e, st2) →
     process_files fuel self svc fl st =
       Some (Ret tt, add_events [EvLog ERROR (ErrorInBatch e)] st2)).
Proof.
  split_and!.
  - intros fuel st out st'. rewrite process_files_eq. cbv zeta.
    destruct (map (request_of self st) (kept self st 1 fl)) as [|q reqs];
      [by intros [= <- _]|].
    destruct (batches_create svc (q :: reqs)) as [mb|e]; [|by intros [= <- _]].
    destruct (process_batch_results fuel self svc (id mb) fl _)
      as [[[[]|e] st2]|]; [by intros [= <- _]..|done].
  - intros fuel st reqs st1 e. rewrite prepare_batch_requests_eq.
    intros [= Hreqs Hst1] Hne He. rewrite process_files_eq. cbv zeta.
    rewrite Hreqs, Hst1. destruct reqs as [|q reqs]; [done|]. by rewrite He.
  - intros b st n e Hfl Hwait Hraise fuel Hfuel.
    replace fuel with (n + S (fuel - S n)) by lia.
    set (st1 := add_events [EvPbarOpen (length fl)] st).
    assert (∀ i, i < n → answers svc b (polls st1 + i) (fun s => s ≠ "ended"))
      as Hwait1 by done.
    destruct (waited_frame svc b n st1 Hwait1)
      as (_ & _ & _ & _ & Hpolls & es & Htr & _).
    rewrite process_batch_results_eq. fold st1.
    rewrite while_loop_wait by (by apply nonempty_enters || done).
    destruct Hraise as [He|[(mb & Hmb & Hend) He]].
    + erewrite while_loop_raises;
        [| by apply nonempty_enters | by rewrite Hpolls].
      eexists _, ([EvPbarOpen (length fl)] ++ es ++
                  [EvRetrieve b (clock (waited svc b n st1))]).
      split; [reflexivity|]. simpl. rewrite Htr. unfold st1. simpl.
      by rewrite <- !app_assoc.
    + erewrite while_loop_ended;
        [| by apply nonempty_enters | by rewrite Hpolls | done].
      rewrite He.
      eexists _, ([EvPbarOpen (length fl)] ++ es ++
                  [EvRetrieve b (clock (waited svc b n st1));
                   EvLog INFO (BatchStatus (id mb) (processing_status mb));
                   EvResults b]).
      split; [reflexivity|]. simpl. rewrite Htr. unfold st1. simpl.
      by rewrite <- !app_assoc.
  - intros fuel st reqs st1 mb e st2. rewrite prepare_batch_requests_eq.
    intros [= Hreqs Hst1] Hne Hmb Hrun. rewrite process_files_eq. cbv zeta.
    rewrite Hreqs, Hst1. destruct reqs as [|q reqs]; [done|].
    by rewrite Hmb, Hrun.
Qed.

(** C1 at a failing input: one request is issued, the batch has ended with
    that request canceled; the loop is left with nothing marked processed,
    and the run returns normally with the progress bar at 0 of 1. *)
Theorem canceled_result_left_unprocessed :
  ∃ reqs st1 st2 st3,
    prepare_batch_requests self0 ["a.md"] st0 = (Ret reqs, st1) ∧
    custom_id <$> reqs = ["req_1"] ∧
    while_loop 1 self0 svc_canceled "batch_1" ["a.md"] ∅ st1 =
      Some (Ret ∅, st2) ∧
    process_files 1 self0 svc_canceled ["a.md"] st0 = Some (Ret tt, st3) ∧
    progress (trace st3) = 0 ∧
    errors_logged (trace st3) = [].
Proof.
  eexists _, _, _, _. split; [apply prepare_batch_requests_eq|].
  split; [by vm_compute|]. split; [by vm_compute|].
  split; [by vm_compute|]. split; by vm_compute.
Qed.

(** C10 at a failing input: for a path without a final component,
    with_name raises inside the try, the handler reads the unbound
    optimized_path, and the call raises. *)
Theorem write_to_nameless_path_raises txt st :
  name (parse "/") = "" ∧
  write_optimized_content (parse "/") txt st =
    (Raise (UnboundLocalError "optimized_path"), st).
Proof. split; reflexivity. Qed.

(** For every path that has a name the call returns normally, whether or not
    the file could be written. *)
Lemma write_optimized_content_returns file_path txt st :
  name file_path ≠ "" →
  ∃ st', write_optimized_content file_path txt st = (Ret tt, st').
Proof.
  intros [q Hq]%(with_name_named _ (optimized_name file_path)).
  erewrite write_optimized_content_eq by done. eauto.
Qed.

(** A succeeded result whose write fails is marked processed all the same,
    with the error logged and no file written. *)
Lemma failed_write_still_processed self r processed st q txt rest :
  r_type r = "succeeded" →
  r_custom_id r ∉ processed →
  r_content r = txt :: rest →
  output_path self st (r_custom_id r) = Some q →
  q ∈ unwritable st →
  handle_result self r processed st =
    (Ret ({[r_custom_id r]} ∪ processed),
     add_events [EvLog ERROR (ErrorWriting q (OSError q)); EvPbarUpdate 1] st).
Proof.
  intros. erewrite handle_result_succeeded by done.
  unfold written. by rewrite decide_True.
Qed.

(** * Further properties *)

(** ** More on paths: where the output goes *)

Lemma app_cons_string a s t : String a s +:+ t = String a (s +:+ t).
Proof. reflexivity. Qed.

Lemma app_nil_string t : "" +:+ t = t.
Proof. reflexivity. Qed.

Lemma length_app_string s t :
  String.length (s +:+ t) = String.length s + String.length t.
Proof.
  induction s as [|a s IH]; [done|].
  rewrite app_cons_string. simpl. by rewrite IH.
Qed.

Lemma length_substring_prefix s i :
  i ≤ String.length s → String.length (substring 0 i s) = i.
Proof.
  revert i. induction s as [|a s IH]; intros [|i] Hi; simpl in *;
    try lia; try done.
  rewrite IH; lia.
Qed.

Lemma substring_app_l s t :
  substring 0 (String.length s) (s +:+ t) = s.
Proof.
  induction s as [|a s IH].
  - rewrite app_nil_string. by destruct t.
  - rewrite app_cons_string. simpl. by rewrite IH.
Qed.

Lemma substring_app_r s t :
  substring (String.length s) (String.length t) (s +:+ t) = t.
Proof.
  induction s as [|a s IH].
  - rewrite app_nil_string. apply substring_all.
  - rewrite app_cons_string. simpl. exact IH.
Qed.

Lemma rfind_from_shift c s : ∀ pos,
  rfind_from c s pos = (fun i => pos + i) <$> rfind_from c s 0.
Proof.
  induction s as [|a s IH]; intros pos; [done|]. simpl.
  rewrite (IH (S pos)), (IH 1).
  destruct (rfind_from c s 0) as [j|]; simpl.
  - f_equal. lia.
  - case_decide; simpl; [f_equal; lia|done].
Qed.

Lemma rfind_from_app c s t : ∀ pos,
  rfind_from c (s +:+ t) pos =
  match rfind_from c t (pos + String.length s) with
  | Some j => Some j
  | None => rfind_from c s pos
  end.
Proof.
  induction s as [|a s IH]; intros pos.
  - rewrite app_nil_string. simpl. rewrite Nat.add_0_r.
    by destruct (rfind_from c t pos).
  - rewrite app_cons_string. simpl. rewrite IH.
    replace (S pos + String.length s) with (pos + S (String.length s)) by lia.
    by destruct (rfind_from c t (pos + S (String.length s))).
Qed.

(** The suffix of a name begins at its last dot. *)
Lemma rfind_suffix nm i :
  ext_index nm = Some i → rfind "."%char (suffix_of nm) = Some 0.
Proof.
  intros Hi. pose proof (ext_index_bound _ _ Hi) as Hb.
  assert (rfind "."%char nm = Some i) as Hr.
  { unfold ext_index in Hi. destruct (rfind "."%char nm) as [j|]; [|done].
    by destruct (bool_decide (0 < j) && bool_decide (j < String.length nm - 1));
      simplify_eq. }
  pose proof (stem_suffix nm) as Hsplit.
  assert (stem_of nm = substring 0 i nm) as Hstem by (unfold stem_of; by rewrite Hi).
  assert (String.length (stem_of nm) = i) as Hlen
    by (rewrite Hstem; apply length_substring_prefix; lia).
  rewrite <- Hsplit in Hr at 1. unfold rfind in *.
  rewrite rfind_from_app, Hlen in Hr. simpl in Hr.
  rewrite rfind_from_shift in Hr.
  destruct (rfind_from "." (suffix_of nm) 0) as [j|] eqn:Hj; simpl in Hr.
  - injection Hr as Hr. f_equal. lia.
  - apply rfind_from_bound in Hr. lia.
Qed.

Lemma ext_index_optimized nm i :
  ext_index nm = Some i →
  ext_index (stem_of nm +:+ "-OPTIMIZED" +:+ suffix_of nm) = Some (i + 10).
Proof.
  intros Hi. pose proof (ext_index_bound _ _ Hi) as Hb.
  pose proof (rfind_suffix _ _ Hi) as Hs.
  assert (String.length (stem_of nm) = i) as Hlen.
  { unfold stem_of. rewrite Hi. apply length_substring_prefix. lia. }
  assert (String.length (stem_of nm +:+ "-OPTIMIZED" +:+ suffix_of nm) =
          String.length nm + 10) as Hlen'.
  { pose proof (f_equal String.length (stem_suffix nm)) as Hsum.
    rewrite length_app_string in Hsum.
    rewrite !length_app_string. simpl. lia. }
  unfold ext_index, rfind in *.
  rewrite !rfind_from_app, Hlen. simpl String.length.
  rewrite (rfind_from_shift _ (suffix_of nm)), Hs. simpl.
  rewrite Hlen'.
  rewrite !bool_decide_true by lia. simpl. f_equal. lia.
Qed.

(** X1: when the input name has an extension, the output name has the same
    extension, and its stem is the input's stem followed by "-OPTIMIZED". *)
Theorem optimized_name_keeps_extension file_path q :
  with_name file_path (optimized_name file_path) = Some q →
  suffix file_path ≠ "" →
  suffix q = suffix file_path ∧ stem q = stem file_path +:+ "-OPTIMIZED".
Proof.
  intros (_ & Hq & _)%with_name_Some Hsuf.
  unfold suffix, stem in *. rewrite Hq. unfold optimized_name, suffix, stem.
  set (nm := name file_path) in *.
  destruct (ext_index nm) as [i|] eqn:Hi;
    [|by unfold suffix_of in Hsuf; rewrite Hi in Hsuf].
  pose proof (ext_index_bound _ _ Hi) as Hb.
  assert (String.length (stem_of nm) = i) as Hlen.
  { unfold stem_of. rewrite Hi. apply length_substring_prefix. lia. }
  assert (String.length (stem_of nm +:+ "-OPTIMIZED") = i + 10) as Hlen1
    by (rewrite length_app_string, Hlen; done).
  assert (stem_of nm +:+ "-OPTIMIZED" +:+ suffix_of nm =
          (stem_of nm +:+ "-OPTIMIZED") +:+ suffix_of nm) as Hassoc.
  { clear. induction (stem_of nm) as [|a s IH]; [done|].
    rewrite !app_cons_string. by f_equal. }
  assert (String.length ((stem_of nm +:+ "-OPTIMIZED") +:+ suffix_of nm) - (i + 10)
          = String.length (suffix_of nm)) as Hrest
    by (rewrite length_app_string, Hlen1; lia).
  split.
  - unfold suffix_of at 1. rewrite (ext_index_optimized _ _ Hi), Hassoc, Hrest.
    rewrite <- Hlen1. apply substring_app_r.
  - unfold stem_of at 1. rewrite (ext_index_optimized _ _ Hi), Hassoc.
    rewrite <- Hlen1. apply substring_app_l.
Qed.

Lemma optimized_name_keeps_extension_witness :
  suffix (parse "/data/book.tar.gz") = ".gz" ∧
  stem (parse "/data/book.tar-OPTIMIZED.gz") = "book.tar" +:+ "-OPTIMIZED".
Proof.
  apply (optimized_name_keeps_extension
           (parse "/data/book.tar.gz") (parse "/data/book.tar-OPTIMIZED.gz")).
  - reflexivity.
  - discriminate.
Defined.

(** The output path is never the input path. *)
Lemma optimized_path_differs file_path q :
  with_name file_path (optimized_name file_path) = Some q → q ≠ file_path.
Proof.
  intros (_ & Hq & _)%with_name_Some ->.
  assert (String.length (name file_path) =
          String.length (optimized_name file_path)) as Hlen by (by rewrite Hq).
  pose proof (f_equal String.length (stem_suffix (name file_path))) as Hsum.
  unfold optimized_name, stem, suffix in Hlen.
  rewrite !length_app_string in Hlen. rewrite length_app_string in Hsum.
  change (String.length "-OPTIMIZED") with 10 in Hlen. lia.
Qed.

Lemma fetches_app es1 es2 : fetches (es1 ++ es2) = fetches es1 + fetches es2.
Proof. induction es1 as [|[] es1 IH]; simpl; by rewrite ?IH. Qed.

Lemma progress_app es1 es2 : progress (es1 ++ es2) = progress es1 + progress es2.
Proof. induction es1 as [|[] es1 IH]; simpl; rewrite ?IH; lia. Qed.

Lemma slept_app es1 es2 : slept (es1 ++ es2) = slept es1 + slept es2.
Proof. induction es1 as [|[] es1 IH]; simpl; rewrite ?IH; lia. Qed.

Lemma preserves_refl self st : preserves self st st.
Proof. by unfold preserves. Qed.

Lemma preserves_trans self st1 st2 st3 :
  preserves self st1 st2 → preserves self st2 st3 → preserves self st1 st3.
Proof.
  intros (Hm1 & Hw1 & Hr1 & Ht1 & Hf1 & Hd1) (Hm2 & Hw2 & Hr2 & Ht2 & Hf2 & Hd2).
  unfold preserves. split_and!; try congruence.
  - intros p Hp. rewrite Hf2, Hf1; [done..|].
    intros cid. rewrite (output_path_frame _ st1) by done. apply Hp.
  - eauto.
Qed.

Lemma preserves_add_events self es st : preserves self st (add_events es st).
Proof. by unfold preserves. Qed.

Lemma preserves_written self st cid q txt :
  output_path self st cid = Some q → preserves self st (written q txt st).
Proof.
  intros Hq. destruct (written_frame q txt st) as (Hm & Hu & Hother & Hat).
  destruct (written_log q txt st) as (Htn & _).
  unfold preserves. split_and!; try done.
  - unfold written. case_decide; [done|]. by destruct (torn st !! q).
  - intros p Hp. apply Hother. intros ->. by apply (Hp cid).
  - intros p Hp. destruct (decide (p = q)) as [->|Hne].
    + rewrite Hat. case_decide; [done|]. by destruct (torn st !! q).
    + by rewrite Hother.
Qed.

(** [handle_result], case by case. *)
Lemma handle_result_cases self r processed st :
  handle_result self r processed st =
  if decide (r_custom_id r ∈ processed) then (Ret processed, st)
  else if decide (r_type r = "succeeded") then
    match custom_id_to_filename st !! r_custom_id r with
    | None => (Raise (KeyError (r_custom_id r)), st)
    | Some _ =>
        match r_content r with
        | [] => (Raise IndexError, st)
        | txt :: _ =>
            match output_path self st (r_custom_id r) with
            | None => (Raise (UnboundLocalError "optimized_path"), st)
            | Some q => (Ret ({[r_custom_id r]} ∪ processed), written q txt st)
            end
        end
    end
  else if decide (r_type r = "errored" ∨ r_type r = "expired") then
    (Ret ({[r_custom_id r]} ∪ processed),
     add_events [EvLog ERROR (RequestFailed (r_custom_id r)); EvPbarUpdate 1] st)
  else (Ret processed, st).
Proof.
  destruct (decide (r_custom_id r ∈ processed)) as [Hin|Hnew].
  { unfold handle_result. by rewrite decide_True. }
  destruct (decide (r_type r = "succeeded")) as [Hs|Hs].
  - destruct (custom_id_to_filename st !! r_custom_id r) as [filename|] eqn:Hm.
    + destruct (r_content r) as [|txt rest] eqn:Hc.
      * unfold handle_result. rewrite decide_False, decide_True by done.
        unfold bind, mapping_get. rewrite Hm, Hc. done.
      * destruct (output_path self st (r_custom_id r)) as [q|] eqn:Hq.
        -- by erewrite handle_result_succeeded.
        -- unfold handle_result. rewrite decide_False, decide_True by done.
           unfold bind, mapping_get. rewrite Hm, Hc. simpl.
           unfold output_path in Hq. rewrite Hm in Hq.
           unfold write_optimized_content. by rewrite Hq.
    + unfold handle_result. rewrite decide_False, decide_True by done.
      unfold bind, mapping_get. by rewrite Hm.
  - destruct (decide (r_type r = "errored" ∨ r_type r = "expired")) as [Hf|Hf].
    + by apply handle_result_failed.
    + unfold handle_result. by rewrite !decide_False.
Qed.

(** The state did not change. *)
Ltac unchanged :=
  split; [apply preserves_refl|]; split; [done|]; split; [done|];
  exists []; rewrite app_nil_r;
  split; [done|]; split; [done|]; split; [done|]; split; [done|].

(** One result: what is kept, what is added to the trace, who is marked. *)
Lemma handle_result_inv self r processed st o st' :
  handle_result self r processed st = (o, st') →
  preserves self st st' ∧ clock st' = clock st ∧ polls st' = polls st ∧
  ∃ es, trace st' = trace st ++ es ∧ fetches es = 0 ∧ poll_times es = [] ∧
        slept es = 0 ∧
        match o with
        | Ret s =>
            s = (if decide (recognised r) then {[r_custom_id r]} ∪ processed
                 else processed) ∧
            size processed + progress es = size s
        | Raise _ => st' = st
        end.
Proof.
  rewrite handle_result_cases.
  assert (size processed + 0 = size processed) as Hsame by lia.
  destruct (decide (r_custom_id r ∈ processed)) as [Hin|Hnew].
  { intros [= <- <-]. unchanged.
    split; [|done]. case_decide; [set_solver|done]. }
  assert (size processed + 1 = size ({[r_custom_id r]} ∪ processed)) as Hsize.
  { rewrite size_union by set_solver. rewrite size_singleton. lia. }
  destruct (decide (r_type r = "succeeded")) as [Hs|Hs].
  - destruct (custom_id_to_filename st !! r_custom_id r) as [filename|];
      [|intros [= <- <-]; by unchanged].
    destruct (r_content r) as [|txt rest]; [intros [= <- <-]; by unchanged|].
    destruct (output_path self st (r_custom_id r)) as [q|] eqn:Hq;
      [|intros [= <- <-]; by unchanged].
    intros [= <- <-]. split; [by eapply preserves_written|].
    rewrite decide_True by (by left).
    unfold written. case_decide; [|destruct (torn st !! q)]; simpl;
      (split; [done|]; split; [done|]; eexists; split; [done|]; by simpl).
  - destruct (decide (r_type r = "errored" ∨ r_type r = "expired")) as [Hf|Hf].
    + intros [= <- <-]. split; [apply preserves_add_events|].
      rewrite decide_True by (destruct Hf; [right; by left|right; by right]).
      split; [done|]. split; [done|]. eexists. split; [done|]. by simpl.
    + intros [= <- <-]. unchanged. split; [|done].
      rewrite decide_False; [done|].
      intros [?|[?|?]]; [done|apply Hf; by left|apply Hf; by right].
Qed.

Lemma recognised_ids_cons r rs :
  recognised_ids (r :: rs) =
  (if decide (recognised r) then {[r_custom_id r]} ∪ recognised_ids rs
   else recognised_ids rs).
Proof.
  unfold recognised_ids. rewrite filter_cons. by case_decide.
Qed.

(** A whole pass over the results. *)
Lemma for_results_inv self rs : ∀ processed st o st',
  for_results self rs processed st = (o, st') →
  preserves self st st' ∧ clock st' = clock st ∧ polls st' = polls st ∧
  ∃ es, trace st' = trace st ++ es ∧ fetches es = 0 ∧ poll_times es = [] ∧
        slept es = 0 ∧
        match o with
        | Ret s =>
            s = processed ∪ recognised_ids rs ∧
            size processed + progress es = size s
        | Raise _ => True
        end.
Proof.
  induction rs as [|r rs IH]; intros processed st o st'.
  - intros [= <- <-]. split; [apply preserves_refl|].
    split; [done|]. split; [done|]. exists []. rewrite app_nil_r.
    split; [done|]. split; [done|]. split; [done|]. split; [done|].
    split; [|simpl; lia]. unfold recognised_ids. simpl. set_solver.
  - rewrite for_results_cons.
    destruct (handle_result self r processed st) as [[s1|e1] st1] eqn:H1.
    + apply handle_result_inv in H1
        as (Hp1 & Hc1 & Hq1 & es1 & Ht1 & Hf1 & Hpt1 & Hs1 & -> & Hsz1).
      intros H2. apply IH in H2
        as (Hp2 & Hc2 & Hq2 & es2 & Ht2 & Hf2 & Hpt2 & Hs2 & Hres).
      split; [by eapply preserves_trans|].
      split; [congruence|]. split; [congruence|].
      exists (es1 ++ es2). rewrite Ht2, Ht1, <- app_assoc.
      rewrite fetches_app, poll_times_app, slept_app, progress_app, Hf1, Hf2,
        Hpt1, Hpt2, Hs1, Hs2.
      split; [done|]. split; [done|]. split; [done|]. split; [done|].
      destruct o as [s|e]; [|done]. destruct Hres as [-> Hsz2].
      rewrite recognised_ids_cons. split; [|lia].
      case_decide; set_solver.
    + intros [= <- <-]. apply handle_result_inv in H1
        as (Hp1 & Hc1 & Hq1 & es1 & Ht1 & Hf1 & Hpt1 & Hs1 & _).
      split; [done|]. split; [done|]. split; [done|]. by exists es1.
Qed.

(** X2: after a pass over the results that returns normally, the ids marked
    processed are those marked before together with the custom ids of the
    results whose outcome is "succeeded", "errored" or "expired"; and the
    progress bar has advanced by exactly the number of ids newly marked. *)
Theorem processed_ids_characterised self rs processed st s st' :
  for_results self rs processed st = (Ret s, st') →
  s = processed ∪ recognised_ids rs ∧
  progress (trace st') = progress (trace st) + (size s - size processed).
Proof.
  intros (_ & _ & _ & es & Ht & _ & _ & _ & Hs & Hsz)%for_results_inv.
  split; [done|]. rewrite Ht, progress_app. lia.
Qed.

Lemma processed_ids_characterised_witness :
  let rs := [mkResult "req_1" "succeeded" ["Hi"]; mkResult "req_2" "canceled" [];
             mkResult "req_3" "expired" []; mkResult "req_1" "errored" []] in
  let res := for_results self0 rs ∅ st1 in
  {["req_1"; "req_3"]} = (∅ : gset string) ∪ recognised_ids rs ∧
  progress (trace res.2) =
    progress (trace st1) + (size ({["req_1"; "req_3"]} : gset string) - size (∅ : gset string)).
Proof.
  apply (processed_ids_characterised self0
           [mkResult "req_1" "succeeded" ["Hi"]; mkResult "req_2" "canceled" [];
            mkResult "req_3" "expired" []; mkResult "req_1" "errored" []]
           ∅ st1 {["req_1"; "req_3"]}).
  by vm_compute.
Defined.

Lemma accounted_refl st : accounted st st [].
Proof. unfold accounted. rewrite app_nil_r. simpl. split_and!; [done|lia|lia]. Qed.

Lemma accounted_trans st1 st2 st3 es1 es2 :
  accounted st1 st2 es1 → accounted st2 st3 es2 →
  accounted st1 st3 (es1 ++ es2).
Proof.
  intros (Ht1 & Hc1 & Hp1) (Ht2 & Hc2 & Hp2). unfold accounted.
  rewrite Ht2, Ht1, Hc2, Hc1, Hp2, Hp1, slept_app, poll_times_app, length_app,
    <- app_assoc.
  split_and!; [done|lia|lia].
Qed.

Lemma for_results_accounted self rs processed st o st' :
  for_results self rs processed st = (o, st') →
  ∃ es, accounted st st' es ∧ fetches es = 0.
Proof.
  intros (_ & Hc & Hp & es & Ht & Hf & Hpt & Hs & _)%for_results_inv.
  exists es. split; [|done]. unfold accounted. rewrite Hpt, Hs. simpl.
  split_and!; [done|lia|lia].
Qed.

(** One iteration of the loop, whatever the service answers. *)
Lemma loop_body_inv self svc b processed st o st' :
  loop_body self svc b processed st = (o, st') →
  preserves self st st' ∧
  ∃ es, accounted st st' es ∧
        match o with
        | Ret None => fetches es = 0
        | Ret (Some _) => fetches es = 1
        | Raise _ => fetches es ≤ 1
        end.
Proof.
  destruct (batches_retrieve svc b (polls st)) as [mb|e] eqn:Hmb.
  - destruct (decide (processing_status mb = "ended")) as [Hend|Hnot].
    + erewrite loop_body_ended by done.
      assert (accounted st (fetching b mb st)
                [EvRetrieve b (clock st);
                 EvLog INFO (BatchStatus (id mb) (processing_status mb));
                 EvResults b]) as Hacc.
      { unfold accounted, fetching. simpl. split_and!; [done|lia|lia]. }
      destruct (batches_results svc b) as [rs|e].
      * destruct (for_results self rs processed (fetching b mb st))
          as [o1 st1] eqn:Hrun.
        pose proof (for_results_inv _ _ _ _ _ _ Hrun) as (Hpres & _).
        apply for_results_accounted in Hrun as (es & Hacc2 & Hf).
        assert (preserves self st st1) as Hp.
        { eapply preserves_trans; [|exact Hpres]. by unfold preserves, fetching. }
        pose proof (accounted_trans _ _ _ _ _ Hacc Hacc2) as Hall.
        destruct o1 as [s|e]; intros [= <- <-]; (split; [done|]);
          eexists; (split; [exact Hall|]); rewrite fetches_app, Hf; simpl; lia.
      * intros [= <- <-]. split; [by unfold preserves, fetching|].
        eexists. split; [exact Hacc|]. simpl. lia.
    + rewrite loop_body_waiting by (by exists mb).
      intros [= <- <-]. unfold waiting_step. rewrite Hmb.
      case_decide.
      * split; [by unfold preserves|].
        exists [EvRetrieve b (clock st);
                EvLog INFO (BatchStatus (id mb) (processing_status mb));
                EvSleep retry_interval].
        split; [|done]. unfold accounted. simpl.
        rewrite <- !app_assoc. unfold retry_interval.
        split_and!; [done|lia|lia].
      * split; [by unfold preserves|].
        exists [EvRetrieve b (clock st);
                EvLog INFO (BatchStatus (id mb) (processing_status mb))].
        split; [|done]. unfold accounted. simpl. split_and!; [done|lia|lia].
  - unfold loop_body, bind, retrieve. rewrite Hmb. intros [= <- <-].
    split; [by unfold preserves|].
    exists [EvRetrieve b (clock st)]. split; [|simpl; lia].
    unfold accounted. simpl. split_and!; [done|lia|lia].
Qed.

(** The whole loop, for any fuel that suffices. *)
Lemma while_loop_inv self svc b fl fuel : ∀ processed st o st',
  while_loop fuel self svc b fl processed st = Some (o, st') →
  preserves self st st' ∧
  ∃ es, accounted st st' es ∧ fetches es ≤ 1 ∧
        (size processed < length fl → ∀ s, o = Ret s → fetches es = 1).
Proof.
  induction fuel as [|fuel IH]; intros processed st o st'; [done|].
  simpl. destruct (decide (size processed < length fl)) as [Hlt|Hge].
  - destruct (loop_body self svc b processed st) as [[[s1|]|e1] st1] eqn:Hbody;
      apply loop_body_inv in Hbody as (Hp1 & es1 & Hacc1 & Hf1).
    + intros [= <- <-]. split; [done|]. exists es1.
      split; [done|]. split; [lia|]. done.
    + intros Hrec. apply IH in Hrec as (Hp2 & es2 & Hacc2 & Hf2 & Hex).
      split; [by eapply preserves_trans|]. exists (es1 ++ es2).
      split; [by eapply accounted_trans|]. rewrite fetches_app, Hf1.
      split; [lia|]. intros _ s Hs. simpl. by eapply Hex.
    + intros [= <- <-]. split; [done|]. exists es1.
      split; [done|]. split; [done|]. by intros _ s.
  - intros [= <- <-]. split; [apply preserves_refl|]. exists [].
    split; [apply accounted_refl|]. split; [simpl; lia|]. intros; lia.
Qed.

(** X3: a call of process_batch_results fetches the results at most once;
    when it returns normally for a non-empty file list it has fetched them
    exactly once, and for an empty file list it neither polls nor fetches. *)
Theorem results_fetched_once fuel self svc b fl st o st' :
  process_batch_results fuel self svc b fl st = Some (o, st') →
  ∃ es, trace st' = trace st ++ es ∧
        fetches es ≤ 1 ∧
        (fl ≠ [] → o = Ret tt → fetches es = 1) ∧
        (fl = [] → fetches es = 0 ∧ poll_times es = []).
Proof.
  rewrite process_batch_results_eq.
  set (st0 := add_events [EvPbarOpen (length fl)] st).
  destruct (while_loop fuel self svc b fl ∅ st0) as [[o1 st1]|] eqn:Hloop;
    [|done].
  assert (fl = [] → st1 = st0 ∧ ∃ s, o1 = Ret s) as Hempty.
  { intros ->. destruct fuel as [|fuel]; [done|].
    change (while_loop (S fuel) self svc b [] ∅ st0)
      with (if decide (size (∅ : gset string) < 0)
            then match loop_body self svc b ∅ st0 with
                 | (Raise e, st') => Some (Raise e, st')
                 | (Ret (Some s), st') => Some (Ret s, st')
                 | (Ret None, st') => while_loop fuel self svc b [] ∅ st'
                 end
            else Some (Ret ∅, st0)) in Hloop.
    rewrite decide_False in Hloop by lia. injection Hloop as <- <-.
    eauto. }
  apply while_loop_inv in Hloop as (_ & es & (Ht & _ & _) & Hle & Hex).
  assert (∃ x, fetches [x] = 0 ∧ poll_times [x] = [] ∧
            match o1 with
            | Ret _ => Some (Ret tt, add_events [EvPbarClose] st1)
            | Raise e =>
                Some (Raise e, add_events [EvLog ERROR (ErrorInBatch e)] st1)
            end = Some (match o1 with Ret _ => Ret tt | Raise e => Raise e end,
                        add_events [x] st1)) as (x & Hfx & Hpx & ->).
  { destruct o1; eexists; (split; [|split; [|reflexivity]]); done. }
  intros [= <- <-].
  exists ([EvPbarOpen (length fl)] ++ es ++ [x]).
  split; [simpl; rewrite Ht; unfold st0; simpl; by rewrite <- !app_assoc|].
  change (fetches ([EvPbarOpen (length fl)] ++ es ++ [x]))
    with (fetches (es ++ [x])).
  change (poll_times ([EvPbarOpen (length fl)] ++ es ++ [x]))
    with (poll_times (es ++ [x])).
  rewrite fetches_app, poll_times_app, Hfx, Hpx, Nat.add_0_r, app_nil_r.
  split; [done|]. split.
  - intros Hfl Ho. destruct o1 as [s|e]; [|done].
    eapply Hex; [by apply nonempty_enters|done].
  - intros Hfl. destruct (Hempty Hfl) as [-> _].
    assert (es = []) as -> by (by apply (inj (app (trace st0))); rewrite app_nil_r).
    done.
Qed.

Lemma results_fetched_once_witness :
  let st' :=
    match process_batch_results 1 self0 svc_canceled "batch_1" ["a.md"] st1 with
    | Some (_, s) => s
    | None => st1
    end in
  ∃ es,
    trace st' = trace st1 ++ es ∧
    fetches es ≤ 1 ∧
    (["a.md"] ≠ [] → Ret tt = Ret tt → fetches es = 1) ∧
    (["a.md"] = [] → fetches es = 0 ∧ poll_times es = []).
Proof.
  apply (results_fetched_once 1 self0 svc_canceled "batch_1" ["a.md"] st1).
  vm_compute. reflexivity.
Defined.

(** X5: while the service keeps answering with a status other than "ended",
    process_batch_results does not return, whatever the fuel. *)
Theorem unended_batch_never_returns self svc b fl st :
  fl ≠ [] →
  (∀ n, answers svc b n (fun s => s ≠ "ended")) →
  ∀ fuel, process_batch_results fuel self svc b fl st = None.
Proof.
  intros Hfl Hnever fuel. rewrite process_batch_results_eq.
  replace fuel with (fuel + 0) by lia.
  rewrite while_loop_wait; [done|by apply nonempty_enters|].
  intros i _. apply Hnever.
Qed.

Lemma unended_batch_never_returns_witness :
  process_batch_results 1000 self0 svc_stuck "batch_1" ["a.md"] st1 = None.
Proof.
  apply (unended_batch_never_returns self0 svc_stuck "batch_1" ["a.md"] st1).
  - discriminate.
  - intros n. exists (mkBatch "batch_1" "in_progress"). split; [reflexivity|].
    discriminate.
Defined.

Lemma record_ids_lookup_Some l : ∀ m k f,
  record_ids m l !! k = Some f →
  m !! k = Some f ∨ ∃ i, (i, f) ∈ l ∧ k = req_id i.
Proof.
  induction l as [|x l IH]; intros m k f Hk; [by left|].
  unfold record_ids in Hk. simpl in Hk.
  fold (record_ids (<[req_id x.1:=x.2]> m) l) in Hk.
  apply IH in Hk as [Hk|(i & Hin & ->)].
  - destruct (decide (req_id x.1 = k)) as [<-|Hne].
    + rewrite lookup_insert_eq in Hk. injection Hk as <-.
      right. exists x.1. split; [|done]. destruct x. apply elem_of_cons. by left.
    + rewrite lookup_insert_ne in Hk by done. by left.
  - right. exists i. split; [|done]. apply elem_of_cons. by right.
Qed.

(** After preparation every mapped id is routed to the sibling of a listed
    file. *)
Lemma prepared_outputs_are_siblings self fl st m cid p :
  custom_id_to_filename m = record_ids ∅ (kept self st 1 fl) →
  output_path self m cid = Some p →
  ∃ f, f ∈ fl ∧ sibling_of self f = Some p.
Proof.
  intros Hm. unfold output_path. rewrite Hm.
  destruct (record_ids ∅ (kept self st 1 fl) !! cid) as [f|] eqn:Hf; [|done].
  intros Hp. exists f. split; [|done].
  apply record_ids_lookup_Some in Hf as [Hf|(i & Hin & _)]; [done|].
  by apply kept_files in Hin as [? _].
Qed.

(** X4: whatever the service answers, a run of process_files changes no file
    other than the "-OPTIMIZED" siblings of the listed files, and removes no
    file. *)
Theorem only_optimized_siblings_change fuel self svc fl st o st' :
  process_files fuel self svc fl st = Some (o, st') →
  (∀ p, (∀ f, f ∈ fl → sibling_of self f ≠ Some p) →
        files st' !! p = files st !! p) ∧
  (∀ p, is_Some (files st !! p) → is_Some (files st' !! p)).
Proof.
  rewrite process_files_eq. cbv zeta.
  set (st1 := add_events (prepare_events self st fl)
                (set_mapping (record_ids ∅ (kept self st 1 fl)) st)).
  destruct (map (request_of self st) (kept self st 1 fl)) as [|q reqs];
    [by intros [= <- <-]|].
  destruct (batches_create svc (q :: reqs)) as [mb|e]; [|by intros [= <- <-]].
  rewrite process_batch_results_eq.
  set (st2 := add_events [EvPbarOpen (length fl)]
                (add_events [EvCreate (q :: reqs)] st1)).
  destruct (while_loop fuel self svc (id mb) fl ∅ st2) as [[o1 st3]|] eqn:Hloop;
    [|done].
  apply while_loop_inv in Hloop as ((Hm & Hw & Hr & Htn & Hf & Hd) & _).
  assert (∀ p, (∀ f, f ∈ fl → sibling_of self f ≠ Some p) →
               files st3 !! p = files st !! p) as Hframe.
  { intros p Hp. rewrite Hf; [done|]. intros cid Hout.
    eapply (prepared_outputs_are_siblings self fl st st2) in Hout
      as (f & Hin & Hsib); [|done].
    by apply (Hp f). }
  destruct o1 as [s|e]; intros [= <- <-]; by split_and!.
Qed.

Lemma only_optimized_siblings_change_witness :
  let st' :=
    match process_files 3 self0 svc0 ["a.md"; "b.md"] st0 with
    | Some (_, s) => s
    | None => st0
    end in
  (∀ p, (∀ f, f ∈ ["a.md"; "b.md"] → sibling_of self0 f ≠ Some p) →
        files st' !! p = files st0 !! p) ∧
  (∀ p, is_Some (files st0 !! p) → is_Some (files st' !! p)).
Proof.
  apply (only_optimized_siblings_change 3 self0 svc0 ["a.md"; "b.md"] st0 (Ret tt)).
  vm_compute. reflexivity.
Defined.

Section NoSleep.

Context (svc : Service) (b : string).

Lemma waited_no_sleep n : ∀ st,
  (∀ i, i < n →
        answers svc b (polls st + i)
                (fun s => s ≠ "ended" ∧ s ≠ "in_progress")) →
  clock (waited svc b n st) = clock st ∧
  ∃ es, trace (waited svc b n st) = trace st ++ es ∧ slept es = 0 ∧
        length (poll_times es) = n.
Proof.
  induction n as [|n IH]; intros st Hw.
  - simpl. split; [done|]. exists []. by rewrite app_nil_r.
  - assert (answers svc b (polls st)
              (fun s => s ≠ "ended" ∧ s ≠ "in_progress")) as (mb & Hmb & Hne & Hnp).
    { specialize (Hw 0 ltac:(lia)). by rewrite Nat.add_0_r in Hw. }
    assert (waiting_step svc b st =
            add_events [EvRetrieve b (clock st);
                        EvLog INFO (BatchStatus (id mb) (processing_status mb))]
                       (set_polls (S (polls st)) st)) as Hstep.
    { unfold waiting_step. by rewrite Hmb, decide_False. }
    simpl. specialize (IH (waiting_step svc b st)). rewrite Hstep in *.
    destruct IH as (Hc & es & Ht & Hs & Hlen).
    { intros i Hi. simpl. specialize (Hw (S i) ltac:(lia)).
      by replace (S (polls st + i)) with (polls st + S i) by lia. }
    rewrite Hc, Ht. simpl. split; [done|].
    eexists. rewrite <- app_assoc. split; [done|]. simpl. by rewrite Hlen.
Qed.

End NoSleep.

(** X6: a status that is neither "in_progress" nor "ended" is polled again
    at once: n such answers in a row cost n polls and no sleep, the clock
    stands still. *)
Theorem unknown_status_polled_without_sleep self svc b fl processed st n :
  size processed < length fl →
  (∀ i, i < n →
        answers svc b (polls st + i)
                (fun s => s ≠ "ended" ∧ s ≠ "in_progress")) →
  ∃ st_n es,
    (∀ fuel, while_loop (n + fuel) self svc b fl processed st =
             while_loop fuel self svc b fl processed st_n) ∧
    trace st_n = trace st ++ es ∧
    length (poll_times es) = n ∧ slept es = 0 ∧
    clock st_n = clock st.
Proof.
  intros Hsz Hw.
  destruct (waited_no_sleep svc b n st Hw) as (Hc & es & Ht & Hs & Hlen).
  exists (waited svc b n st), es. split_and!; try done.
  intros fuel. apply while_loop_wait; [done|].
  intros i Hi. eapply answers_weaken; [|by apply Hw]. by intros s [? _].
Qed.

Lemma unknown_status_polled_without_sleep_witness :
  ∃ st_n es,
    (∀ fuel, while_loop (3 + fuel) self0 svc_canceling "batch_1" ["a.md"] ∅ st1 =
             while_loop fuel self0 svc_canceling "batch_1" ["a.md"] ∅ st_n) ∧
    trace st_n = trace st1 ++ es ∧
    length (poll_times es) = 3 ∧ slept es = 0 ∧
    clock st_n = clock st1.
Proof.
  apply (unknown_status_polled_without_sleep
           self0 svc_canceling "batch_1" ["a.md"] ∅ st1 3).
  - vm_compute. lia.
  - intros i Hi. exists (mkBatch "batch_1" "canceling"). simpl.
    split; [|split; discriminate]. destruct (decide (i < 3)); [reflexivity|lia].
Defined.

Lemma for_results_app self pre rs2 : ∀ processed st,
  for_results self (pre ++ rs2) processed st =
  match for_results self pre processed st with
  | (Ret s, st1) => for_results self rs2 s st1
  | (Raise e, st1) => (Raise e, st1)
  end.
Proof.
  induction pre as [|r pre IH]; intros processed st; [done|].
  rewrite <- app_comm_cons, !for_results_cons.
  destruct (handle_result self r processed st) as [[s|e] st1]; [apply IH|done].
Qed.

(** X7: a succeeded result that cannot be delivered stops the pass: when its
    custom id is not in the id map the lookup raises KeyError, when it is but
    the message has no content block the indexing raises IndexError; the
    results before it have been handled, those after it are never looked
    at. *)
Theorem undeliverable_result_aborts_pass self pre r rest processed st s st1 e :
  for_results self pre processed st = (Ret s, st1) →
  r_type r = "succeeded" →
  r_custom_id r ∉ s →
  (custom_id_to_filename st !! r_custom_id r = None ∧
   e = KeyError (r_custom_id r)) ∨
  (is_Some (custom_id_to_filename st !! r_custom_id r) ∧
   r_content r = [] ∧ e = IndexError) →
  for_results self (pre ++ r :: rest) processed st = (Raise e, st1).
Proof.
  intros Hpre Ht Hnew Hwhy. rewrite for_results_app, Hpre, for_results_cons.
  apply for_results_inv in Hpre as ((Hm & _) & _).
  rewrite handle_result_cases, decide_False, decide_True, Hm by done.
  destruct Hwhy as [[-> ->]|([f ->] & -> & ->)]; done.
Qed.

Lemma undeliverable_result_aborts_pass_witness :
  let pre := [mkResult "req_1" "succeeded" ["Hi"]] in
  for_results self0
    (pre ++ mkResult "req_9" "succeeded" ["Lost"]
         :: [mkResult "req_3" "expired" []]) ∅ st1 =
  (Raise (KeyError "req_9"), (for_results self0 pre ∅ st1).2).
Proof.
  apply (undeliverable_result_aborts_pass self0
           [mkResult "req_1" "succeeded" ["Hi"]]
           (mkResult "req_9" "succeeded" ["Lost"])
           [mkResult "req_3" "expired" []] ∅ st1 {["req_1"]}).
  - vm_compute. reflexivity.
  - reflexivity.
  - vm_compute. intros H. discriminate H.
  - left. split; reflexivity.
Defined.

(** X9: write_optimized_content touches the sibling path and nothing else.
    For a path with a name it returns normally.  When the sibling cannot be
    opened it is left as it was; when the write fails after the open, the
    sibling has been created or truncated and holds the characters of the
    content that got through; in both cases the error is logged.  Otherwise
    the sibling holds the content, replacing what was there.  Every other
    file, the input file included, is as before. *)
Theorem write_touches_only_the_sibling file_path q txt st :
  with_name file_path (optimized_name file_path) = Some q →
  ∃ st',
    write_optimized_content file_path txt st = (Ret tt, st') ∧
    (∀ p, p ≠ q → files st' !! p = files st !! p) ∧
    files st' !! file_path = files st !! file_path ∧
    (q ∈ unwritable st →
       files st' = files st ∧
       trace st' = trace st ++ [EvLog ERROR (ErrorWriting q (OSError q))]) ∧
    (q ∉ unwritable st → ∀ k, torn st !! q = Some k →
       files st' !! q = Some (substring 0 k txt) ∧
       trace st' = trace st ++ [EvLog ERROR (ErrorWriting q (OSError q))]) ∧
    (q ∉ unwritable st → torn st !! q = None →
       files st' !! q = Some txt ∧
       trace st' = trace st ++ [EvWrite q txt; EvLog INFO (WroteOptimized q)]).
Proof.
  intros Hq. rewrite (write_optimized_content_eq _ _ _ _ Hq).
  pose proof (optimized_path_differs _ _ Hq) as Hne.
  eexists. split; [done|].
  destruct (decide (q ∈ unwritable st)) as [Hu|Hw]; [by split_and!|].
  assert (∀ t p, p ≠ q → <[q:=t]> (files st) !! p = files st !! p) as Hother
    by (intros t p Hp; by rewrite lookup_insert_ne).
  destruct (torn st !! q) as [k|] eqn:Hk; simpl.
  - split; [by apply Hother|]. split; [by apply Hother|]. split; [done|].
    split; [|done]. intros _ k' [= <-]. by rewrite lookup_insert_eq.
  - split; [by apply Hother|]. split; [by apply Hother|]. split; [done|].
    split; [done|]. intros _ _. by rewrite lookup_insert_eq.
Qed.

Lemma write_touches_only_the_sibling_witness :
  let q := parse "/data/a-OPTIMIZED.md" in
  ∃ st',
    write_optimized_content (parse "/data/a.md") "Hi" st1_torn = (Ret tt, st') ∧
    (∀ p, p ≠ q → files st' !! p = files st1_torn !! p) ∧
    files st' !! parse "/data/a.md" = files st1_torn !! parse "/data/a.md" ∧
    (q ∈ unwritable st1_torn →
       files st' = files st1_torn ∧
       trace st' =
         trace st1_torn ++ [EvLog ERROR (ErrorWriting q (OSError q))]) ∧
    (q ∉ unwritable st1_torn → ∀ k, torn st1_torn !! q = Some k →
       files st' !! q = Some (substring 0 k "Hi") ∧
       trace st' =
         trace st1_torn ++ [EvLog ERROR (ErrorWriting q (OSError q))]) ∧
    (q ∉ unwritable st1_torn → torn st1_torn !! q = None →
       files st' !! q = Some "Hi" ∧
       trace st' =
         trace st1_torn ++ [EvWrite q "Hi"; EvLog INFO (WroteOptimized q)]).
Proof.
  apply (write_touches_only_the_sibling
           (parse "/data/a.md") (parse "/data/a-OPTIMIZED.md") "Hi" st1_torn).
  reflexivity.
Defined.


Lemma has_text_openable self st f : has_text self st f → openable self st f.
Proof.
  intros (Hr & s & Hs & _)%has_text_iff. split; [done|]. by rewrite Hs.
Qed.

Lemma read_events_length self st f :
  length (read_events st (joinpath (base_dir self) f)) =
  if decide (openable self st f) then 0 else 1.
Proof.
  destruct (decide (openable self st f)) as [[Hr [s Hs]]|Hno].
  - unfold read_events. by rewrite decide_False, Hs.
  - unfold read_events. case_decide; [done|].
    destruct (files st !! joinpath (base_dir self) f) as [s|] eqn:Hs; [|done].
    destruct Hno. split; [done|]. by rewrite Hs.
Qed.

Lemma read_events_errors st p :
  Forall (fun e => ∃ m, e = EvLog ERROR m) (read_events st p).
Proof.
  unfold read_events. case_decide; [by repeat econstructor|].
  destruct (files st !! p); by repeat econstructor.
Qed.

Lemma prepare_events_length self st fl :
  length (prepare_events self st fl) =
  length (filter (fun f => ¬ openable self st f) fl).
Proof.
  unfold prepare_events. induction fl as [|f fl IH]; [done|].
  simpl. rewrite length_app, IH, read_events_length, filter_cons.
  destruct (decide (openable self st f)) as [Ho|Ho].
  - rewrite decide_False by (intros Hn; by apply Hn). simpl. lia.
  - rewrite decide_True by done. simpl. lia.
Qed.

Lemma prepare_events_errors self st fl :
  Forall (fun e => ∃ m, e = EvLog ERROR m) (prepare_events self st fl).
Proof.
  unfold prepare_events. induction fl as [|f fl IH]; [constructor|].
  simpl. apply Forall_app. split; [apply read_events_errors|apply IH].
Qed.

Lemma files_partition self st fl :
  length (filter (has_text self st) fl) +
  length (filter (fun f => ¬ openable self st f) fl) +
  length (filter (fun f => openable self st f ∧ ¬ has_text self st f) fl) =
  length fl.
Proof.
  induction fl as [|f fl IH]; [done|].
  rewrite !filter_cons. simpl.
  destruct (decide (has_text self st f)) as [Ht|Ht].
  - pose proof (has_text_openable _ _ _ Ht) as Ho.
    rewrite decide_False by (intros Hn; by apply Hn).
    rewrite decide_False by (by intros [_ ?]). simpl. lia.
  - destruct (decide (openable self st f)) as [Ho|Ho].
    + rewrite decide_False by (intros Hn; by apply Hn).
      rewrite decide_True by done. simpl. lia.
    + rewrite decide_True by done.
      rewrite decide_False by (by intros [? _]). simpl. lia.
Qed.

(** X10: preparation accounts for every listed file exactly once: a file
    that reads back as text gets a request, a file that cannot be opened gets
    one error line, and a file that opens but is empty is dropped without a
    word.  The files, the clock and the poll counter are not touched. *)
Theorem prepare_accounts_for_every_file self fl st :
  ∃ reqs st' es,
    prepare_batch_requests self fl st = (Ret reqs, st') ∧
    trace st' = trace st ++ es ∧
    Forall (fun e => ∃ m, e = EvLog ERROR m) es ∧
    length reqs = length (filter (has_text self st) fl) ∧
    length es = length (filter (fun f => ¬ openable self st f) fl) ∧
    length reqs + length es +
      length (filter (fun f => openable self st f ∧ ¬ has_text self st f) fl) =
      length fl ∧
    files st' = files st ∧ clock st' = clock st ∧ polls st' = polls st.
Proof.
  eexists _, _, (prepare_events self st fl).
  split; [apply prepare_batch_requests_eq|]. split; [done|].
  split; [apply prepare_events_errors|].
  split; [by rewrite length_map, kept_length|].
  split; [apply prepare_events_length|].
  split; [|done].
  rewrite length_map, kept_length, prepare_events_length.
  apply files_partition.
Qed.

(** X11: after preparation the id map sends req_i to the file at position i
    of the list (counting from 1) when that file reads back as text, and has
    no other entry. *)
Theorem mapping_routes_positions self fl st :
  ∃ reqs st',
    prepare_batch_requests self fl st = (Ret reqs, st') ∧
    ∀ k f,
      custom_id_to_filename st' !! k = Some f ↔
      ∃ i, k = req_id i ∧ 1 ≤ i ∧ fl !! (i - 1) = Some f ∧ has_text self st f.
Proof.
  eexists _, _. split; [apply prepare_batch_requests_eq|]. simpl.
  intros k f. split.
  - intros [Hk|(i & Hin & ->)]%record_ids_lookup_Some; [done|].
    apply kept_elem in Hin as (? & ? & ?). by exists i.
  - intros (i & -> & Hi & Hl & Ht).
    apply record_ids_lookup; [apply sorted_lt_NoDup, kept_sorted|].
    by apply kept_elem.
Qed.

Lemma kept_filenames self st fl : ∀ idx,
  (kept self st idx fl).*2 = filter (has_text self st) fl.
Proof.
  induction fl as [|f fl IH]; intros idx; [done|].
  rewrite kept_cons, filter_cons. case_decide; simpl; by rewrite IH.
Qed.

(** X12: the requests come in the order of the listed files that have text;
    each names the same model, 8192 output tokens, temperature 0 and the
    processor's system prompt, and carries one user message: the fixed
    prefix followed by the file's text, unchanged. *)
Theorem requests_carry_file_text_in_order self fl st :
  ∃ reqs st',
    prepare_batch_requests self fl st = (Ret reqs, st') ∧
    messages <$> reqs = user_message self st <$> filter (has_text self st) fl ∧
    Forall (fun q => model q = "claude-3-5-haiku-20241022" ∧
                     max_tokens q = 8192%N ∧ temperature q = 0 ∧
                     system q = system_prompt self) reqs.
Proof.
  eexists _, _. split; [apply prepare_batch_requests_eq|]. split.
  - rewrite <- (kept_filenames self st fl 1).
    rewrite <- !list_fmap_compose. by apply list_fmap_ext.
  - apply Forall_fmap, Forall_forall. by intros x _.
Qed.

(** X8: the steps compose.  When the submission is accepted, the batch ends
    after finitely many polls and every result is a succeeded one for an
    issued custom id, with a text block and an output path of its own, then
    process_files returns normally, and every result carries the id req_i of
    the request that was built from the file at position i of the list and
    has been routed to the sibling of that very file.  The sibling holds the
    returned text when the write went through; it is as it was when it could
    not be opened, and holds what got through when the write failed after
    the open, the error being logged in both cases. *)
Theorem run_delivers_results self svc fl st reqs st1 mb n rs :
  prepare_batch_requests self fl st = (Ret reqs, st1) →
  reqs ≠ [] →
  batches_create svc reqs = Ret mb →
  (∀ i, i < n → answers svc (id mb) (polls st + i) (fun s => s ≠ "ended")) →
  answers svc (id mb) (polls st + n) (fun s => s = "ended") →
  batches_results svc (id mb) = Ret rs →
  Forall (fun r => r_type r = "succeeded" ∧ r_content r ≠ [] ∧
                   r_custom_id r ∈ custom_id <$> reqs) rs →
  (∀ f, f ∈ fl → has_text self st f →
        name (joinpath (base_dir self) f) ≠ "") →
  NoDup (outputs self st1 rs) →
  ∀ fuel, n < fuel →
    ∃ st',
      process_files fuel self svc fl st = Some (Ret tt, st') ∧
      Forall (fun r => ∃ i f q,
                r_custom_id r = req_id i ∧
                1 ≤ i ∧ fl !! (i - 1) = Some f ∧ has_text self st f ∧
                request_of self st (i, f) ∈ reqs ∧
                custom_id_to_filename st' !! r_custom_id r = Some f ∧
                sibling_of self f = Some q ∧
                delivered st st' q r ∧
                (write_fails st q →
                 EvLog ERROR (ErrorWriting q (OSError q)) ∈ trace st')) rs.
Proof.
  rewrite prepare_batch_requests_eq.
  intros [= Hreqs <-] Hne Hcreate Hwait (mbe & Hmbe & Hend) Hrs Hall Hnamed
         Hnd fuel Hfuel.
  set (st1 := add_events (prepare_events self st fl)
                (set_mapping (record_ids ∅ (kept self st 1 fl)) st)) in *.
  assert (fl ≠ []) as Hfl.
  { intros ->. apply Hne. by rewrite <- Hreqs. }
  assert (∀ cid, cid ∈ custom_id <$> reqs →
            ∃ i f q, cid = req_id i ∧ 1 ≤ i ∧ fl !! (i - 1) = Some f ∧
                     has_text self st f ∧
                     request_of self st (i, f) ∈ reqs ∧
                     custom_id_to_filename st1 !! cid = Some f ∧
                     sibling_of self f = Some q) as Hroute.
  { intros cid. rewrite <- Hreqs, request_ids.
    intros (i & -> & ([i' f] & Hi & Hin)%list_elem_of_fmap)%list_elem_of_fmap.
    simpl in Hi. subst i'.
    pose proof (proj1 (kept_elem _ _ _ _ _ _) Hin) as (Hle & Hl & Ht).
    destruct (with_name_named (joinpath (base_dir self) f)
                (optimized_name (joinpath (base_dir self) f))) as [q Hq].
    { apply Hnamed; [|done]. by eapply list_elem_of_lookup_2. }
    exists i, f, q. split_and!; try done.
    - by apply (list_elem_of_fmap_2 (request_of self st)).
    - simpl. apply record_ids_lookup; [|done].
      apply sorted_lt_NoDup, kept_sorted. }
  rewrite process_files_eq. cbv zeta. rewrite Hreqs. fold st1.
  destruct reqs as [|q0 reqs0]; [done|]. rewrite Hcreate.
  rewrite process_batch_results_eq.
  set (st2 := add_events [EvPbarOpen (length fl)]
                (add_events [EvCreate (q0 :: reqs0)] st1)).
  assert (polls st2 = polls st) as Hpolls2 by done.
  replace fuel with (n + S (fuel - S n)) by lia.
  assert (∀ i, i < n → answers svc (id mb) (polls st2 + i) (fun s => s ≠ "ended"))
    as Hwait2 by (by rewrite Hpolls2).
  destruct (waited_frame svc (id mb) n st2 Hwait2)
    as (Hf & _ & Hu & Hm & Hpolls & _).
  pose proof (waited_torn svc (id mb) n st2) as Htn.
  rewrite while_loop_wait by (by apply nonempty_enters || done).
  erewrite while_loop_ended;
    [| by apply nonempty_enters | by rewrite Hpolls, Hpolls2 | done].
  rewrite Hrs.
  set (st3 := fetching (id mb) mbe (waited svc (id mb) n st2)).
  assert (custom_id_to_filename st3 = custom_id_to_filename st1) as Hm3 by done.
  assert (unwritable st3 = unwritable st ∧ torn st3 = torn st ∧
          files st3 = files st) as (Hu3 & Ht3 & Hf3).
  { change (unwritable st3) with (unwritable (waited svc (id mb) n st2)).
    change (torn st3) with (torn (waited svc (id mb) n st2)).
    change (files st3) with (files (waited svc (id mb) n st2)).
    by rewrite Hu, Htn, Hf. }
  destruct (for_results_succeeded self rs ∅ st3)
    as (st4 & -> & Hm4 & _ & _ & _ & _ & Hdel).
  { eapply Forall_impl; [exact Hall|]. intros r (? & ? & Hin).
    split_and!; try done.
    destruct (Hroute _ Hin) as (i & f & q & _ & _ & _ & _ & _ & Hlook & Hsib).
    exists q. unfold output_path. by rewrite Hm3, Hlook. }
  { by rewrite (outputs_frame _ st1). }
  { apply Forall_forall. intros r _. apply not_elem_of_empty. }
  eexists. split; [done|].
  apply Forall_forall. intros r Hr.
  eapply Forall_forall in Hdel as (q & Hq & Hd & Hlog); [|exact Hr].
  eapply Forall_forall in Hall as (_ & _ & Hin); [|exact Hr].
  destruct (Hroute _ Hin)
    as (i & f & q' & Hid & Hle & Hl & Ht & Hreq & Hlook & Hsib).
  assert (q' = q) as ->.
  { unfold output_path in Hq. rewrite Hm3, Hlook in Hq.
    unfold sibling_of in Hsib. congruence. }
  exists i, f, q. split_and!; try done.
  - simpl. by rewrite Hm4, Hm3.
  - unfold delivered in *. simpl. by rewrite Hd, Hu3, Ht3, Hf3.
  - intros Hfail. simpl. apply elem_of_app. left. apply Hlog.
    unfold write_fails in *. by rewrite Hu3, Ht3.
Qed.

Lemma run_delivers_results_witness :
  ∃ st',
    process_files 3 self0 svc0 ["a.md"; "b.md"] st0 = Some (Ret tt, st') ∧
    Forall (fun r => ∃ i f q,
              r_custom_id r = req_id i ∧
              1 ≤ i ∧ ["a.md"; "b.md"] !! (i - 1) = Some f ∧
              has_text self0 st0 f ∧
              request_of self0 st0 (i, f)
                ∈ map (request_of self0 st0)
                      (kept self0 st0 1 ["a.md"; "b.md"]) ∧
              custom_id_to_filename st' !! r_custom_id r = Some f ∧
              sibling_of self0 f = Some q ∧
              delivered st0 st' q r ∧
              (write_fails st0 q →
               EvLog ERROR (ErrorWriting q (OSError q)) ∈ trace st'))
           [mkResult "req_1" "succeeded" ["Hi"]].
Proof.
  apply (run_delivers_results self0 svc0 ["a.md"; "b.md"] st0
           (map (request_of self0 st0) (kept self0 st0 1 ["a.md"; "b.md"]))
           (prepare_batch_requests self0 ["a.md"; "b.md"] st0).2
           (mkBatch "batch_1" "in_progress") 2
           [mkResult "req_1" "succeeded" ["Hi"]]).
  - vm_compute. reflexivity.
  - vm_compute. discriminate.
  - reflexivity.
  - intros i Hi. exists (mkBatch "batch_1" "in_progress"). simpl.
    split; [|discriminate]. destruct (decide (i < 2)); [reflexivity|lia].
  - exists (mkBatch "batch_1" "ended"). split; reflexivity.
  - reflexivity.
  - constructor; [|constructor]. split; [reflexivity|]. split; [discriminate|].
    vm_compute. apply list_elem_of_here.
  - intros f Hf Ht.
    apply elem_of_cons in Hf as [->|Hf]; [vm_compute; discriminate|].
    apply elem_of_cons in Hf as [->|Hf]; [vm_compute; discriminate|].
    by apply elem_of_nil in Hf.
  - vm_compute. repeat constructor; set_solver.
  - lia.
Defined.

(** ** A pass over results that repeat no custom id *)

(** The pass starts from any set of processed ids that holds none of the
    results' ids. *)
Lemma pass_without_repeats self rs : ∀ processed st,
  NoDup (r_custom_id <$> rs) →
  Forall (fun r => r_custom_id r ∉ processed) rs →
  Forall (fun r => r_type r = "succeeded" → deliverable self st r) rs →
  ∃ s st' es,
    for_results self rs processed st = (Ret s, st') ∧
    trace st' = trace st ++ es ∧
    custom_id_to_filename st' = custom_id_to_filename st ∧
    s = processed ∪ recognised_ids rs ∧
    Forall (fun r => r_type r = "errored" ∨ r_type r = "expired" →
                     EvLog ERROR (RequestFailed (r_custom_id r)) ∈ es) rs ∧
    (∀ p, (∀ r, r ∈ rs → r_type r = "succeeded" →
                output_path self st (r_custom_id r) ≠ Some p) →
          files st' !! p = files st !! p).
Proof.
  induction rs as [|r rs IH]; intros processed st Hnd Hnew Hok.
  - exists processed, st, []. rewrite app_nil_r. split_and!; try done.
    unfold recognised_ids. simpl. set_solver.
  - rewrite fmap_cons in Hnd. apply NoDup_cons in Hnd as [Hr Hnd].
    apply Forall_cons in Hnew as [Hnew1 Hnew].
    apply Forall_cons in Hok as [Hok1 Hok].
    assert (∃ s1 st1 es1,
              handle_result self r processed st = (Ret s1, st1) ∧
              trace st1 = trace st ++ es1 ∧
              custom_id_to_filename st1 = custom_id_to_filename st ∧
              s1 = (if decide (recognised r)
                    then {[r_custom_id r]} ∪ processed else processed) ∧
              (r_type r = "errored" ∨ r_type r = "expired" →
               EvLog ERROR (RequestFailed (r_custom_id r)) ∈ es1) ∧
              (∀ p, (r_type r = "succeeded" →
                     output_path self st (r_custom_id r) ≠ Some p) →
                    files st1 !! p = files st !! p))
      as (s1 & st1 & es1 & Hstep & Htr1 & Hm1 & Hs1 & Hlog1 & Hfr1).
    { destruct (decide (r_type r = "succeeded")) as [Hs|Hs].
      - destruct (Hok1 Hs) as (_ & Hc & [q Hq]).
        destruct (r_content r) as [|txt rest] eqn:Hcont; [done|].
        destruct (written_frame q txt st) as (Hm & _ & Hother & _).
        destruct (written_log q txt st) as (_ & es1 & Htr & _).
        exists ({[r_custom_id r]} ∪ processed), (written q txt st), es1.
        split; [by eapply handle_result_succeeded|].
        split; [done|]. split; [done|].
        split; [by rewrite decide_True by (by left)|].
        split; [by rewrite Hs; intros [?|?]|].
        intros p Hp. apply Hother. intros ->. by apply Hp.
      - destruct (decide (r_type r = "errored" ∨ r_type r = "expired"))
          as [Hf|Hf].
        + eexists _, _, _. split; [by apply handle_result_failed|].
          split; [done|]. split; [done|].
          split; [by rewrite decide_True by (right; tauto)|].
          split; [intros _; apply list_elem_of_here|done].
        + exists processed, st, []. rewrite app_nil_r.
          split; [by rewrite handle_result_cases, !decide_False|].
          split; [done|]. split; [done|].
          split; [by rewrite decide_False by (unfold recognised; tauto)|].
          done. }
    destruct (IH s1 st1) as (s & st' & es2 & Hrun & Htr2 & Hm2 & Hs & Hlog2 & Hfr2).
    { done. }
    { subst s1. apply Forall_forall. intros r' Hr'.
      assert (r_custom_id r' ∉ processed) by (by eapply Forall_forall in Hnew).
      case_decide; [|done]. apply not_elem_of_union. split; [|done].
      intros Heq%elem_of_singleton. apply Hr. rewrite <- Heq.
      by apply list_elem_of_fmap_2. }
    { eapply Forall_impl; [exact Hok|]. intros r' Hd Hs'.
      destruct (Hd Hs') as (? & ? & ?). split_and!; try done.
      by rewrite (output_path_frame _ st). }
    exists s, st', (es1 ++ es2).
    rewrite for_results_cons, Hstep, Hrun, Htr2, Htr1, app_assoc.
    split; [done|]. split; [done|]. split; [congruence|].
    split; [|split].
    + rewrite Hs, Hs1, recognised_ids_cons. case_decide; set_solver.
    + constructor.
      * intros Hf. apply elem_of_app. left. by apply Hlog1.
      * eapply Forall_impl; [exact Hlog2|]. intros r' Hl Hf.
        apply elem_of_app. right. by apply Hl.
    + intros p Hp. rewrite Hfr2, Hfr1; [done|..].
      * intros Hs'. apply Hp; [apply list_elem_of_here|done].
      * intros r' Hr' Hs'. rewrite (output_path_frame _ st) by done.
        apply Hp; [by apply list_elem_of_further|done].
Qed.

(** C5: in a pass over results that repeat no custom id and whose succeeded
    results can be delivered, the pass runs to the end; for every result
    whose outcome is "errored" or "expired" the failure is logged and its
    custom id is marked processed; every result with a handled outcome is
    marked, those after a failed one included; and no file changes except
    at the output paths of succeeded results, so nothing is written for a
    failed one. *)
Theorem failed_results_logged_pass_continues self rs st :
  NoDup (r_custom_id <$> rs) →
  Forall (fun r => r_type r = "succeeded" → deliverable self st r) rs →
  ∃ s st' es,
    for_results self rs ∅ st = (Ret s, st') ∧
    trace st' = trace st ++ es ∧
    s = recognised_ids rs ∧
    Forall (fun r => r_type r = "errored" ∨ r_type r = "expired" →
                     r_custom_id r ∈ s ∧
                     EvLog ERROR (RequestFailed (r_custom_id r)) ∈ es) rs ∧
    (∀ p, (∀ r, r ∈ rs → r_type r = "succeeded" →
                output_path self st (r_custom_id r) ≠ Some p) →
          files st' !! p = files st !! p).
Proof.
  intros Hnd Hok.
  destruct (pass_without_repeats self rs ∅ st Hnd)
    as (s & st' & es & Hrun & Htr & _ & Hs & Hlog & Hfr); [|done|].
  { apply Forall_forall. intros r _. apply not_elem_of_empty. }
  exists s, st', es. split; [done|]. split; [done|].
  assert (s = recognised_ids rs) as Hs' by (rewrite Hs; set_solver).
  split; [done|]. split; [|done].
  apply Forall_forall. intros r Hr Hf.
  split; [|by eapply Forall_forall in Hlog; [apply Hlog|]].
  rewrite Hs'. unfold recognised_ids. apply elem_of_list_to_set.
  apply list_elem_of_fmap_2, list_elem_of_filter. split; [|done].
  unfold recognised. tauto.
Qed.

Lemma failed_results_logged_pass_continues_witness :
  let rs := [mkResult "req_2" "errored" []; mkResult "req_1" "succeeded" ["Hi"];
             mkResult "req_3" "canceled" []; mkResult "req_4" "expired" []] in
  ∃ s st' es,
    for_results self0 rs ∅ st1 = (Ret s, st') ∧
    trace st' = trace st1 ++ es ∧
    s = recognised_ids rs ∧
    Forall (fun r => r_type r = "errored" ∨ r_type r = "expired" →
                     r_custom_id r ∈ s ∧
                     EvLog ERROR (RequestFailed (r_custom_id r)) ∈ es) rs ∧
    (∀ p, (∀ r, r ∈ rs → r_type r = "succeeded" →
                output_path self0 st1 (r_custom_id r) ≠ Some p) →
          files st' !! p = files st1 !! p).
Proof.
  apply (failed_results_logged_pass_continues self0
           [mkResult "req_2" "errored" []; mkResult "req_1" "succeeded" ["Hi"];
            mkResult "req_3" "canceled" []; mkResult "req_4" "expired" []] st1).
  - vm_compute. repeat constructor; set_solver.
  - constructor; [discriminate|]. constructor.
    + intros _. split; [reflexivity|]. split; [discriminate|].
      exists (parse "/data/a-OPTIMIZED.md"). by vm_compute.
    + constructor; [discriminate|]. constructor; [discriminate|constructor].
Defined.
